(** * Aries storage layer: [StorageIOBase], [StorageIOSeekable], [CloudStorageIO]

    A shallow embedding of [storage/base.py].  Python objects are records,
    methods are state-passing functions that return an outcome (a value or a
    raised exception) together with the state reached, so that the state a
    method leaves behind when it raises is part of the model. *)

From Stdlib Require Import ZArith Ascii String List Lia Bool.
From Stdlib.Strings Require Import Byte.
From stdpp Require Import base option list gmap strings sorting.

Local Open Scope string_scope.
Local Open Scope list_scope.
Local Open Scope Z_scope.

(** ** Exceptions and outcomes *)

(** The exception classes [storage/base.py] and the I/O library raise.
    [ClientError] stands for whatever a cloud provider's client raises. *)
Inductive exn : Type :=
  | ValueError
  | TypeError
  | UnsupportedOperation
  | FileNotFoundError
  | FileExistsError
  | OSError
  | NotImplementedError
  | AttributeError
  | ClientError (code : nat).

Inductive outcome (A : Type) : Type :=
  | Ok (a : A)
  | Raise (e : exn).
Arguments Ok {A} a.
Arguments Raise {A} e.

(** A method over a mutable object of type [S]. *)
Definition M (S A : Type) : Type := S -> outcome A * S.

Definition ret {S A} (a : A) : M S A := fun s => (Ok a, s).
Definition raise {S A} (e : exn) : M S A := fun s => (Raise e, s).
Definition bind {S A B} (m : M S A) (k : A -> M S B) : M S B :=
  fun s => match m s with
           | (Ok a, s') => k a s'
           | (Raise e, s') => (Raise e, s')
           end.
Definition get {S} : M S S := fun s => (Ok s, s).
Definition modify {S} (f : S -> S) : M S unit := fun s => (Ok tt, f s).

Notation "x <- m ;; k" := (bind m (fun x => k))
  (at level 100, m at next level, right associativity).
Notation "m ;;; k" := (bind m (fun _ => k))
  (at level 100, right associativity).

Definition bytes : Type := list byte.

(** [len(b)] *)
Definition len (b : bytes) : Z := Z.of_nat (length b).

(** ** Mode strings *)

Definition chars (s : string) : list ascii := list_ascii_of_string s.

(** [c in s] for a one-character [c]. *)
Definition char_in (c : ascii) (s : string) : bool :=
  existsb (Ascii.eqb c) (chars s).

(** [set(mode) <= set(allowed)] *)
Definition chars_subset (mode allowed : string) : bool :=
  forallb (fun c => char_in c allowed) (chars mode).

(** [sum(c in allowed for c in mode)] *)
Definition count_in (allowed mode : string) : nat :=
  length (List.filter (fun c => char_in c allowed) (chars mode)).

(** [mode.count(c)] *)
Definition count_char (c : ascii) (mode : string) : nat :=
  length (List.filter (Ascii.eqb c) (chars mode)).

Fixpoint insert_sorted (c : ascii) (l : list ascii) : list ascii :=
  match l with
  | [] => [c]
  | d :: l' => if (N_of_ascii c <=? N_of_ascii d)%N then c :: l
               else d :: insert_sorted c l'
  end.

(** [sorted(s)] *)
Definition sorted (s : string) : list ascii :=
  foldr insert_sorted [] (chars s).

(** ** StorageIOBase *)

Record StorageIOBase : Type := {
  _closed : bool;
  _mode : option string;
  _created : bool;
  _readable : bool;
  _writable : bool;
  _appending : bool;
}.

(** [StorageIOBase.__init__] *)
Definition StorageIOBase_init : StorageIOBase :=
  {| _closed := true; _mode := None; _created := false;
     _readable := false; _writable := false; _appending := false |}.

Definition set_closed (v : bool) (h : StorageIOBase) : StorageIOBase :=
  {| _closed := v; _mode := _mode h; _created := _created h;
     _readable := _readable h; _writable := _writable h;
     _appending := _appending h |}.
Definition set_mode_attr (v : option string) (h : StorageIOBase) : StorageIOBase :=
  {| _closed := _closed h; _mode := v; _created := _created h;
     _readable := _readable h; _writable := _writable h;
     _appending := _appending h |}.
Definition set_created (v : bool) (h : StorageIOBase) : StorageIOBase :=
  {| _closed := _closed h; _mode := _mode h; _created := v;
     _readable := _readable h; _writable := _writable h;
     _appending := _appending h |}.
Definition set_readable (v : bool) (h : StorageIOBase) : StorageIOBase :=
  {| _closed := _closed h; _mode := _mode h; _created := _created h;
     _readable := v; _writable := _writable h;
     _appending := _appending h |}.
Definition set_writable (v : bool) (h : StorageIOBase) : StorageIOBase :=
  {| _closed := _closed h; _mode := _mode h; _created := _created h;
     _readable := _readable h; _writable := v;
     _appending := _appending h |}.
Definition set_appending (v : bool) (h : StorageIOBase) : StorageIOBase :=
  {| _closed := _closed h; _mode := _mode h; _created := _created h;
     _readable := _readable h; _writable := _writable h;
     _appending := v |}.

(** The attribute assignments of [_set_mode] after the checks: the
    [if/elif] chain on the kind, then the [+] modifier.  Attributes are only
    ever set to [True] here. *)
Definition apply_mode (mode : string) (h : StorageIOBase) : StorageIOBase :=
  let h1 :=
    if char_in "x" mode then set_writable true (set_created true h)
    else if char_in "r" mode then set_readable true h
    else if char_in "w" mode then set_writable true h
    else if char_in "a" mode then set_appending true (set_writable true h)
    else h in
  if char_in "+" mode then set_writable true (set_readable true h1) else h1.

(** [StorageIOBase._set_mode] *)
Definition _set_mode (mode : string) : M StorageIOBase unit :=
  modify (set_mode_attr (Some mode)) ;;;
  if negb (chars_subset mode "xrwab+") then raise ValueError
  else if negb (Nat.eqb (count_in "rwax" mode) 1)
          || (1 <? count_char "+" mode)%nat then raise ValueError
  else modify (apply_mode mode).

(** [StorageIOBase._is_same_mode]; an empty [mode] is falsy. *)
Definition _is_same_mode (mode : string) (h : StorageIOBase) : bool :=
  match _mode h with
  | None => false
  | Some EmptyString => false
  | Some m =>
      if String.eqb mode EmptyString then true
      else bool_decide (sorted m = sorted mode)
  end.

(** [StorageIOBase.open] *)
Definition StorageIOBase_open (mode : string) : M StorageIOBase unit :=
  h <- get ;;
  (if _is_same_mode mode h then ret tt else _set_mode mode) ;;;
  modify (set_closed false).

(** [StorageIOBase.writable] *)
Definition writable (h : StorageIOBase) : bool :=
  if _writable h && negb (_closed h) then true else false.

(** [StorageIOBase.readable] *)
Definition readable (h : StorageIOBase) : bool :=
  if _readable h then true else false.

(** [StorageIOBase._check_readable] *)
Definition _check_readable : M StorageIOBase unit :=
  h <- get ;;
  if negb (readable h) then raise UnsupportedOperation else ret tt.

(** [StorageIOBase._check_writable] *)
Definition _check_writable : M StorageIOBase unit :=
  h <- get ;;
  if negb (writable h) then raise UnsupportedOperation else ret tt.

(** [StorageIOBase.close] *)
Definition StorageIOBase_close : M StorageIOBase unit :=
  modify (set_closed true) ;;; raise NotImplementedError.

(** [StorageIOBase.read]: the capability check, then the abstract body. *)
Definition StorageIOBase_read (size : option Z) : M StorageIOBase bytes :=
  _check_readable ;;; raise NotImplementedError.

(** [StorageIOBase.write] *)
Definition StorageIOBase_write (b : bytes) : M StorageIOBase Z :=
  _check_writable ;;; raise NotImplementedError.

(** ** The local file system and [io.FileIO]

    The temporary files live on a disk that maps a path to the file's
    content.  [FileIO] is Python's raw file object: its own capability
    flags, its own position, reads and writes through the operating
    system. *)

(** A Python value passed where an integer is expected. *)
Inductive pyval : Type :=
  | PyInt (n : Z)
  | PyNone
  | PyFloat (approx : Z)
  | PyStr (s : string).

Module FileIO.

Record t : Type := {
  name : positive;
  readable : bool;
  writable : bool;
  appending : bool;
  pos : Z;
  closed : bool;
}.

Definition set_pos (p : Z) (f : t) : t :=
  {| name := name f; readable := readable f; writable := writable f;
     appending := appending f; pos := p; closed := closed f |}.

(** [FileIO(name, mode)]: the mode grammar of [FileIO.__init__], then the
    [os.open] flags: [x] is exclusive creation, [w] truncates, [a] appends
    and starts at the end, [r] needs the file. *)
Definition open (path : positive) (mode : string)
    (disk : gmap positive bytes) : outcome t * gmap positive bytes :=
  if negb (chars_subset mode "xrwab+") then (Raise ValueError, disk)
  else if negb (Nat.eqb (count_in "rwax" mode) 1)
          || (1 <? count_char "+" mode)%nat then (Raise ValueError, disk)
  else
    let plus := char_in "+" mode in
    let mk r w a p :=
      {| name := path; readable := r || plus; writable := w || plus;
         appending := a; pos := p; closed := false |} in
    if char_in "x" mode then
      match disk !! path with
      | Some _ => (Raise FileExistsError, disk)
      | None => (Ok (mk false true false 0), <[path := []]> disk)
      end
    else if char_in "r" mode then
      match disk !! path with
      | Some _ => (Ok (mk true false false 0), disk)
      | None => (Raise FileNotFoundError, disk)
      end
    else if char_in "w" mode then
      (Ok (mk false true false 0), <[path := []]> disk)
    else
      match disk !! path with
      | Some c => (Ok (mk false true true (len c)), disk)
      | None => (Ok (mk false true true 0), <[path := []]> disk)
      end.

(** [FileIO.tell] *)
Definition tell (f : t) : outcome Z :=
  if closed f then Raise ValueError else Ok (pos f).

(** [FileIO.seek]: [os.lseek] for the three standard origins. *)
Definition seek (p : pyval) (whence : Z) (f : t)
    (disk : gmap positive bytes) : outcome Z * t :=
  match p with
  | PyInt p =>
      if closed f then (Raise ValueError, f)
      else
        match disk !! name f with
        | None => (Raise OSError, f)
        | Some c =>
            let target :=
              if whence =? 0 then Some p
              else if whence =? 1 then Some (pos f + p)
              else if whence =? 2 then Some (len c + p)
              else None in
            match target with
            | Some q => if q <? 0 then (Raise OSError, f)
                        else (Ok q, set_pos q f)
            | None => (Raise OSError, f)
            end
        end
  | _ => (Raise TypeError, f)
  end.

(** [FileIO.read]: everything up to the end of the file when [size] is
    [None] or negative, at most [size] bytes otherwise. *)
Definition read (size : option Z) (f : t)
    (disk : gmap positive bytes) : outcome bytes * t :=
  if closed f then (Raise ValueError, f)
  else if negb (readable f) then (Raise UnsupportedOperation, f)
  else
    match disk !! name f with
    | None => (Raise OSError, f)
    | Some c =>
        let rest := drop (Z.to_nat (pos f)) c in
        let b := match size with
                 | None => rest
                 | Some n => if n <? 0 then rest else take (Z.to_nat n) rest
                 end in
        (Ok b, set_pos (pos f + len b) f)
    end.

(** [FileIO.write]: at the end of the file for a handle opened for
    append, at the position otherwise (a gap is filled with zero
    bytes). *)
Definition write (b : bytes) (f : t)
    (disk : gmap positive bytes) : outcome Z * t * gmap positive bytes :=
  if closed f then (Raise ValueError, f, disk)
  else if negb (writable f) then (Raise UnsupportedOperation, f, disk)
  else
    match disk !! name f with
    | None => (Raise OSError, f, disk)
    | Some c =>
        if appending f then
          (Ok (len b), set_pos (len c + len b) f, <[name f := c ++ b]> disk)
        else
          let p := Z.to_nat (pos f) in
          let c' := take p c ++ replicate (p - length c) x00
                    ++ b ++ drop (p + length b) c in
          (Ok (len b), set_pos (pos f + len b) f, <[name f := c']> disk)
    end.

(** [FileIO.close] *)
Definition close (f : t) : t :=
  {| name := name f; readable := readable f; writable := writable f;
     appending := appending f; pos := pos f; closed := true |}.

End FileIO.

(** The argument [os.fstat] receives: a file descriptor, or something that
    is not one, such as the bound method [f.fileno] left uncalled. *)
Inductive fstat_arg : Type :=
  | Fileno (f : FileIO.t)
  | BoundMethod_fileno (f : FileIO.t).

(** [os.fstat(arg).st_size] *)
Definition os_fstat_st_size (arg : fstat_arg)
    (disk : gmap positive bytes) : outcome Z :=
  match arg with
  | Fileno f =>
      match disk !! FileIO.name f with
      | Some c => Ok (len c)
      | None => Raise OSError
      end
  | BoundMethod_fileno _ => Raise TypeError
  end.

(** ** The cloud provider's client

    [exists], [get_size], [read_bytes], [download] and [upload] are abstract
    in [CloudStorageIO]; a provider supplies them.  [R] is the state of the
    provider's store. *)
Class CloudClient (R : Type) : Type := {
  client_exists : R -> bool;
  get_size : R -> outcome Z;
  read_bytes : R -> Z -> Z -> outcome bytes;
  download : R -> outcome bytes;
  upload : bytes -> R -> outcome unit * R;
}.

(** The calls made to the client, in order. *)
Inductive call : Type :=
  | CallExists
  | CallGetSize
  | CallReadBytes (start stop : Z)
  | CallDownload
  | CallUpload (data : bytes).

(** ** CloudStorageIO *)

Record CloudStorageIO : Type := {
  base : StorageIOBase;
  _offset : Z;
  temp_path : option positive;
  __file_io : option FileIO.t;
}.

(** [CloudStorageIO.__init__] *)
Definition CloudStorageIO_init : CloudStorageIO :=
  {| base := StorageIOBase_init; _offset := 0;
     temp_path := None; __file_io := None |}.

Definition set_base (v : StorageIOBase) (h : CloudStorageIO) : CloudStorageIO :=
  {| base := v; _offset := _offset h;
     temp_path := temp_path h; __file_io := __file_io h |}.
Definition set_offset (v : Z) (h : CloudStorageIO) : CloudStorageIO :=
  {| base := base h; _offset := v;
     temp_path := temp_path h; __file_io := __file_io h |}.
Definition set_temp_path (v : option positive) (h : CloudStorageIO) : CloudStorageIO :=
  {| base := base h; _offset := _offset h;
     temp_path := v; __file_io := __file_io h |}.
Definition set_file_io (v : option FileIO.t) (h : CloudStorageIO) : CloudStorageIO :=
  {| base := base h; _offset := _offset h;
     temp_path := temp_path h; __file_io := v |}.

(** The handle together with everything its methods touch: the local disk,
    the provider's store, and the record of calls made to the client. *)
Record world (R : Type) : Type := {
  self : CloudStorageIO;
  disk : gmap positive bytes;
  cloud : R;
  calls : list call;
}.
Arguments self {R} w.
Arguments disk {R} w.
Arguments cloud {R} w.
Arguments calls {R} w.

Section Cloud.

Context {R : Type} `{Client : CloudClient R}.

Definition with_self (f : CloudStorageIO -> CloudStorageIO) (w : world R) : world R :=
  {| self := f (self w); disk := disk w; cloud := cloud w; calls := calls w |}.
Definition with_disk (d : gmap positive bytes) (w : world R) : world R :=
  {| self := self w; disk := d; cloud := cloud w; calls := calls w |}.
Definition with_cloud (r : R) (w : world R) : world R :=
  {| self := self w; disk := disk w; cloud := r; calls := calls w |}.
Definition record_call (c : call) (w : world R) : world R :=
  {| self := self w; disk := disk w; cloud := cloud w;
     calls := calls w ++ [c] |}.

(** A method inherited from [StorageIOBase], run on the handle. *)
Definition inherited {A} (m : M StorageIOBase A) : M (world R) A :=
  fun w => let '(r, b) := m (base (self w)) in (r, with_self (set_base b) w).

(** A method call on [self.__file_io]. *)
Definition on_file_io {A}
    (op : FileIO.t -> gmap positive bytes ->
          outcome A * FileIO.t * gmap positive bytes) : M (world R) A :=
  fun w => match __file_io (self w) with
           | None => (Raise AttributeError, w)
           | Some f =>
               let '(r, f', d') := op f (disk w) in
               (r, with_disk d' (with_self (set_file_io (Some f')) w))
           end.

Definition file_io_tell : M (world R) Z :=
  on_file_io (fun f d => (FileIO.tell f, f, d)).
Definition file_io_seek (p : pyval) (whence : Z) : M (world R) Z :=
  on_file_io (fun f d => (FileIO.seek p whence f d, d)).
Definition file_io_read (size : option Z) : M (world R) bytes :=
  on_file_io (fun f d => (FileIO.read size f d, d)).
Definition file_io_write (b : bytes) : M (world R) Z :=
  on_file_io (FileIO.write b).

(** The abstract methods, answered by the client. *)
Definition exists_ : M (world R) bool :=
  fun w => (Ok (client_exists (cloud w)), record_call CallExists w).
Definition call_get_size : M (world R) Z :=
  fun w => (get_size (cloud w), record_call CallGetSize w).
Definition call_read_bytes (start stop : Z) : M (world R) bytes :=
  fun w => (read_bytes (cloud w) start stop,
            record_call (CallReadBytes start stop) w).
(** [download(file_obj)] on the temporary file just created at [path]. *)
Definition call_download (path : positive) : M (world R) unit :=
  fun w => let w' := record_call CallDownload w in
           match download (cloud w) with
           | Ok data => (Ok tt, with_disk (<[path := data]> (disk w')) w')
           | Raise e => (Raise e, w')
           end.
Definition call_upload (data : bytes) : M (world R) unit :=
  fun w => let '(r, c') := upload data (cloud w) in
           (r, with_cloud c' (record_call (CallUpload data) w)).

(** [StorageObject.create_temp_file]: a new, empty file under a name no
    file on the disk has.  Paths are abstract here, so the suffix the name
    takes from the object's basename does not show. *)
Definition create_temp_file : M (world R) positive :=
  fun w => let path := fresh (dom (disk w)) in
           (Ok path, with_disk (<[path := []]> (disk w)) w).

(** [CloudStorageIO.size] *)
Definition size : M (world R) Z :=
  w <- get ;;
  match __file_io (self w) with
  | Some f => fun w => (os_fstat_st_size (BoundMethod_fileno f) (disk w), w)
  | None => call_get_size
  end.

(** [StorageIOSeekable._seek] *)
Definition _seek (pos : pyval) (whence : Z) : M (world R) Z :=
  match pos with
  | PyInt pos =>
      (if whence =? 0 then
         if pos <? 0 then raise ValueError
         else modify (with_self (set_offset pos))
       else if whence =? 1 then
         modify (with_self (fun h => set_offset (Z.max 0 (_offset h + pos)) h))
       else if whence =? 2 then
         sz <- size ;;
         modify (with_self (set_offset (Z.max 0 (sz + pos))))
       else raise ValueError) ;;;
      w <- get ;; ret (_offset (self w))
  | _ => raise TypeError
  end.

(** [CloudStorageIO.seek] *)
Definition seek (pos : pyval) (whence : Z) : M (world R) Z :=
  w <- get ;;
  match __file_io (self w) with
  | Some _ =>
      p <- file_io_seek pos whence ;;
      modify (with_self (set_offset p)) ;;;
      ret p
  | None => _seek pos whence
  end.

(** [CloudStorageIO.tell] *)
Definition tell : M (world R) Z :=
  w <- get ;;
  (match __file_io (self w) with
   | Some _ => p <- file_io_tell ;; modify (with_self (set_offset p))
   | None => ret tt
   end) ;;;
  w <- get ;; ret (_offset (self w)).

(** [self.mode], which must be a string where the code iterates it. *)
Definition mode_str : M (world R) string :=
  w <- get ;;
  match _mode (base (self w)) with
  | Some m => ret m
  | None => raise TypeError
  end.

(** The characters of [mode] that are among r, w, +, a and x, joined: the
    mode [local] hands to [FileIO]. *)
Definition local_mode (mode : string) : string :=
  string_of_list_ascii
    (List.filter (fun c => char_in c "rw+ax") (chars mode)).

(** [CloudStorageIO.local] *)
Definition local : M (world R) unit :=
  w <- get ;;
  match __file_io (self w) with
  | Some _ => ret tt
  | None =>
      path <- create_temp_file ;;
      e <- exists_ ;;
      (if e then
         m <- mode_str ;;
         if char_in "a" m || char_in "+" m then call_download path
         else ret tt
       else ret tt) ;;;
      m <- mode_str ;;
      f <- (fun w => let '(r, d') := FileIO.open path (local_mode m) (disk w) in
                     (r, with_disk d' w)) ;;
      modify (with_self (set_file_io (Some f))) ;;;
      modify (with_self (set_temp_path (Some path)))
  end.

Definition add_offset (n : Z) : M (world R) unit :=
  modify (with_self (fun h => set_offset (_offset h + n) h)).

(** [CloudStorageIO.read] *)
Definition read (sz : option Z) : M (world R) bytes :=
  start <- tell ;;
  w <- get ;;
  match __file_io (self w) with
  | Some _ =>
      file_io_seek (PyInt start) 0 ;;;
      b <- file_io_read sz ;;
      add_offset (len b) ;;;
      ret b
  | None =>
      e <- exists_ ;;
      if negb e then raise FileNotFoundError
      else
        file_size <- size ;;
        if file_size =? 0 then ret []
        else if file_size <? start then ret []
        else
          let stop :=
            match sz with
            | Some n => if n =? 0 then file_size - 1 else start + n - 1
            | None => file_size - 1
            end in
          b <- call_read_bytes start stop ;;
          add_offset (len b) ;;;
          ret b
  end.

(** [CloudStorageIO.write] *)
Definition write (b : bytes) : M (world R) Z :=
  w <- get ;;
  if _closed (base (self w)) then raise ValueError
  else
    local ;;;
    p <- tell ;;
    file_io_seek (PyInt p) 0 ;;;
    n <- file_io_write b ;;
    add_offset n ;;;
    ret n.

(** [CloudStorageIO.__rm_temp] *)
Definition __rm_temp : M (world R) unit :=
  w <- get ;;
  (match temp_path (self w) with
   | Some p =>
       if bool_decide (is_Some (disk w !! p))
       then modify (fun w => with_disk (delete p (disk w)) w)
       else ret tt
   | None => ret tt
   end) ;;;
  modify (with_self (set_temp_path None)).

(** [open(path, 'rb')] followed by reading the whole file, as [upload]
    does with the file object it is given. *)
Definition open_rb (p : positive) : M (world R) bytes :=
  w <- get ;;
  match disk w !! p with
  | Some c => ret c
  | None => raise FileNotFoundError
  end.

(** [CloudStorageIO.close] *)
Definition close : M (world R) unit :=
  w <- get ;;
  if _closed (base (self w)) then ret tt
  else
    (match __file_io (self w) with
     | Some f =>
         (if negb (FileIO.closed f)
          then modify (with_self (set_file_io (Some (FileIO.close f))))
          else ret tt) ;;;
         modify (with_self (set_file_io None))
     | None => ret tt
     end) ;;;
    w <- get ;;
    match temp_path (self w) with
    | Some p =>
        data <- open_rb p ;;
        call_upload data ;;;
        __rm_temp ;;;
        modify (with_self (fun h => set_base (set_closed true (base h)) h))
    | None => ret tt
    end.

(** [CloudStorageIO.open] *)
Definition open (mode : string) : M (world R) unit :=
  w <- get ;;
  (if negb (_closed (base (self w))) then close else ret tt) ;;;
  inherited (StorageIOBase_open mode) ;;;
  modify (with_self (fun h => set_base (set_closed false (base h)) h)) ;;;
  seek (PyInt 0) 0 ;;;
  m <- mode_str ;;
  if char_in "a" m then seek (PyInt 0) 2 ;;; ret tt
  else if char_in "w" m then local
  else ret tt.

End Cloud.

(** ** A reference client

    Modelled from the spec: the provider's client is not part of
    [storage/base.py]; this one follows the capability contract the spec
    gives for it: [exists() -> bool], [getSize() -> integer | fails with
    NotFound], [readRange(start, end) -> bytes] over an inclusive 0-indexed
    range, whole-object [upload] and [download].  [upload_fails] makes the
    next uploads fail, as a provider outage would. *)
Record store : Type := {
  blob : option bytes;
  upload_fails : bool;
}.

#[export] Instance store_client : CloudClient store := {|
  client_exists s := match blob s with Some _ => true | None => false end;
  get_size s := match blob s with
                | Some c => Ok (len c)
                | None => Raise FileNotFoundError
                end;
  read_bytes s start stop :=
    match blob s with
    | Some c => Ok (take (Z.to_nat (stop + 1 - start)) (drop (Z.to_nat start) c))
    | None => Raise FileNotFoundError
    end;
  download s := match blob s with
                | Some c => Ok c
                | None => Raise FileNotFoundError
                end;
  upload data s :=
    if upload_fails s then (Raise (ClientError 0), s)
    else (Ok tt, {| blob := Some data; upload_fails := false |});
|}.

(** A handle just constructed, an empty disk, nothing called yet. *)
Definition fresh_world {R} (r : R) : world R :=
  {| self := CloudStorageIO_init; disk := ∅; cloud := r; calls := [] |}.

Definition existing (c : bytes) : store :=
  {| blob := Some c; upload_fails := false |}.
Definition missing : store := {| blob := None; upload_fails := false |}.
Definition failing (c : bytes) : store :=
  {| blob := Some c; upload_fails := true |}.

Definition hello : bytes := list_byte_of_string "hello world!".

(** ** Sessions

    What a caller does with an open handle between [open] and [close].  The
    caller may catch an exception and go on, so a session keeps the state an
    operation leaves behind whether it returned or raised. *)
Inductive op : Type :=
  | OpRead (sz : option Z)
  | OpWrite (b : bytes)
  | OpSeek (pos : pyval) (whence : Z)
  | OpTell
  | OpSize
  | OpLocal.

Section Sessions.

Context {R : Type} `{Client : CloudClient R}.

Definition step (o : op) (w : world R) : world R :=
  match o with
  | OpRead sz => snd (read sz w)
  | OpWrite b => snd (write b w)
  | OpSeek pos whence => snd (seek pos whence w)
  | OpTell => snd (tell w)
  | OpSize => snd (size w)
  | OpLocal => snd (local w)
  end.

Definition run (ops : list op) (w : world R) : world R :=
  fold_left (fun w o => step o w) ops w.

(** What a step of a mirrored session leaves as it was: the mirror is
    still there, the client has not been called, no file has appeared on
    or gone from the disk, and the handle's flags stand. *)
Definition mirror_kept (w w' : world R) : Prop :=
  is_Some (__file_io (self w'))
  /\ calls w' = calls w
  /\ cloud w' = cloud w
  /\ dom (disk w') = dom (disk w)
  /\ temp_path (self w') = temp_path (self w)
  /\ base (self w') = base (self w).

Definition keeps {A} (m : M (world R) A) : Prop :=
  forall w, is_Some (__file_io (self w)) -> mirror_kept w (snd (m w)).

(** [write] after its call of [local]. *)
Definition write_to_mirror (b : bytes) : M (world R) Z :=
  p <- tell ;;
  file_io_seek (PyInt p) 0 ;;;
  n <- file_io_write b ;;
  add_offset n ;;;
  ret n.

End Sessions.

(** ** Names and URIs *)

(** [s.lstrip(c)] on the characters of [s]. *)
Fixpoint lstrip (c : ascii) (l : list ascii) : list ascii :=
  match l with
  | [] => []
  | d :: l' => if Ascii.eqb d c then lstrip c l' else l
  end.

(** [s.strip(c)]: the occurrences of [c] at both ends go. *)
Definition strip (c : ascii) (l : list ascii) : list ascii :=
  rev (lstrip c (rev (lstrip c l))).

(** [os.path.basename(p)], that is [p[p.rfind('/') + 1:]]. *)
Fixpoint os_path_basename (p : list ascii) : list ascii :=
  match p with
  | [] => []
  | c :: p' =>
      if existsb (Ascii.eqb "/") p' then os_path_basename p'
      else if Ascii.eqb c "/" then p' else p
  end.

(** [StorageObject.basename] *)
Definition basename (path : string) : string :=
  string_of_list_ascii (os_path_basename (strip "/" (chars path))).

(** [s.split(c, 1)] when [c] occurs in [s]: what stands before the first
    [c] and what stands after it.  [None] when [c] does not occur, where
    Python gives the one-element list of [s]. *)
Fixpoint split_first (c : ascii) (l : list ascii)
    : option (list ascii * list ascii) :=
  match l with
  | [] => None
  | d :: l' =>
      if Ascii.eqb d c then Some ([], l')
      else match split_first c l' with
           | Some (before, after) => Some (d :: before, after)
           | None => None
           end
  end.

(** The suffix [StorageObject.create_temp_file] gives the temporary file:
    the caller's, when [kwargs] has one, and otherwise the dot and everything
    after the first dot of the basename, if it has a dot. *)
Definition temp_suffix (kwargs_suffix : option string) (path : string)
    : option string :=
  match kwargs_suffix with
  | Some s => Some s
  | None =>
      match split_first "." (chars (basename path)) with
      | Some (_, ext) => Some (String "." (string_of_list_ascii ext))
      | None => None
      end
  end.

(** The URI [StorageFolderBase.__init__] hands on: a slash is added to a
    non-empty URI that does not end with one. *)
Definition folder_uri (uri : string) : string :=
  match last (chars uri) with
  | Some c => if Ascii.eqb c "/" then uri else uri ++ "/"
  | None => uri
  end.

(** ** Streams *)

(** A source stream, as [copy_stream] sees it: the results of its
    successive [read(chunk_size)] calls; when they run out, [read] gives
    the empty bytes object. *)
Definition stream : Type := list bytes.

(** The bytes [copy_stream] takes from a stream: the chunks up to the first
    empty one. *)
Fixpoint stream_content (src : stream) : bytes :=
  match src with
  | [] => []
  | b :: rest => match b with
                 | [] => []
                 | _ :: _ => b ++ stream_content rest
                 end
  end.

(** What a caller does with a handle over its whole life. *)
Inductive action : Type :=
  | Act (o : op)
  | ActOpen (mode : string)
  | ActClose
  | ActLoadFrom (src : stream)
  | ActReadInto (buf : bytes).

Section Streams.

Context {R : Type} `{Client : CloudClient R}.

(** [IOBase.flush], which [CloudStorageIO] inherits: it refuses a file that
    [IOBase.close] has closed, and [CloudStorageIO.close] never calls
    that. *)
Definition flush : M (world R) unit := ret tt.

(** The loop of [StorageObject.copy_stream], writing to the handle. *)
Fixpoint copy_loop (src : stream) (file_size : Z) : M (world R) Z :=
  match src with
  | [] => ret file_size
  | b :: rest =>
      match b with
      | [] => ret file_size
      | _ :: _ => n <- write b ;; copy_loop rest (file_size + n)
      end
  end.

(** [StorageObject.copy_stream] *)
Definition copy_stream (src : stream) : M (world R) Z :=
  file_size <- copy_loop src 0 ;;
  flush ;;;
  ret file_size.

(** [with self.open(mode) as f: body]: [__exit__] calls [close] whether the
    body returned or raised, and what [close] raises takes the place of what
    the body raised. *)
Definition with_open {A} (mode : string) (body : M (world R) A)
    : M (world R) A :=
  open mode ;;;
  fun w => match body w with
           | (Ok a, w1) => (close ;;; ret a) w1
           | (Raise e, w1) => (close ;;; raise e) w1
           end.

(** [StorageIOBase.load_from] *)
Definition load_from (src : stream) : M (world R) Z :=
  w <- get ;;
  if _closed (base (self w)) then with_open "wb" (copy_stream src)
  else copy_stream src.

(** [StorageIOBase.readall] *)
Definition readall : M (world R) bytes := read None.

(** [StorageIOBase.readinto]: the count, and the buffer as it is left.  The
    slice assignment [m[:n] = data] needs [data] to fit the buffer. *)
Definition readinto (buf : bytes) : M (world R) (Z * bytes) :=
  data <- read (Some (len buf)) ;;
  if (length data <=? length buf)%nat
  then ret (len data, data ++ drop (length data) buf)
  else raise ValueError.

Definition act (a : action) (w : world R) : world R :=
  match a with
  | Act o => step o w
  | ActOpen mode => snd (open mode w)
  | ActClose => snd (close w)
  | ActLoadFrom src => snd (load_from src w)
  | ActReadInto buf => snd (readinto buf w)
  end.

Definition run_actions (acts : list action) (w : world R) : world R :=
  fold_left (fun w a => act a w) acts w.

End Streams.

(** The order [sorted] puts characters in: by code point. *)
Definition code_le (a b : ascii) : Prop := (N_of_ascii a <= N_of_ascii b)%N.

(** ** Invariants of the handle *)

(** Every capability flag [h0] has, [h] has. *)
Definition flags_kept (h0 h : StorageIOBase) : Prop :=
  (_created h0 = true -> _created h = true)
  /\ (_readable h0 = true -> _readable h = true)
  /\ (_writable h0 = true -> _writable h = true)
  /\ (_appending h0 = true -> _appending h = true).

(** The mirror file object, when the handle has one, is open, stands at a
    position that is not negative, and belongs to the file that [temp_path]
    names, which is on the disk. *)
Definition mirror_consistent {R} (w : world R) : Prop :=
  forall f, __file_io (self w) = Some f ->
    0 <= FileIO.pos f
    /\ FileIO.closed f = false
    /\ temp_path (self w) = Some (FileIO.name f)
    /\ is_Some (disk w !! FileIO.name f).

Definition handle_ok {R} (w : world R) : Prop :=
  0 <= _offset (self w) /\ mirror_consistent w.

(** A method relates the state it is called in to the state it leaves. *)
Definition respects {R A} (Rel : world R -> world R -> Prop)
    (m : M (world R) A) : Prop :=
  forall w, Rel w (snd (m w)).

Definition flags_rel {R} (w w' : world R) : Prop :=
  flags_kept (base (self w)) (base (self w')).

Definition ok_rel {R} (w w' : world R) : Prop :=
  handle_ok w -> handle_ok w'.

(** A life of a handle that tries to push the offset below zero. *)
Definition sample_actions : list action :=
  [ActOpen "r+"; Act (OpSeek (PyInt (-5)) 1); Act (OpRead (Some 3));
   Act (OpWrite hello); Act (OpSeek (PyInt (-40)) 2); ActClose].

(** ** The mirror, as the mode shapes it *)

(** A state of the handle and of what it touches, field by field. *)
Definition world_of {R} (bs : StorageIOBase) (o : Z) (tp : option positive)
    (fio : option FileIO.t) (d : gmap positive bytes) (r : R)
    (cs : list call) : world R :=
  {| self := {| base := bs; _offset := o; temp_path := tp;
                __file_io := fio |};
     disk := d; cloud := r; calls := cs |}.

(** Whether [local] downloads the object: it exists, and the mode appends or
    updates. *)
Definition fetches (mode : string) (exists_remote : bool) : bool :=
  exists_remote && (char_in "a" mode || char_in "+" mode).

(** What the mirror holds once [local] has opened it, from what was
    downloaded: a mode with [w] truncates. *)
Definition mirror_bytes (mode : string) (fetched : bytes) : bytes :=
  if char_in "w" mode then [] else fetched.

(** The file object [local] opens on the mirror, for a mode without [x]. *)
Definition mirror_file (mode : string) (p : positive) (fetched : bytes)
    : FileIO.t :=
  {| FileIO.name := p;
     FileIO.readable := char_in "r" mode || char_in "+" mode;
     FileIO.writable := char_in "w" mode || char_in "a" mode
                        || char_in "+" mode;
     FileIO.appending := char_in "a" mode;
     FileIO.pos := if char_in "a" mode then len fetched else 0;
     FileIO.closed := false |}.

(** A file's bytes after [b] is written at position [pos]. *)
Definition overwrite (c : bytes) (pos : nat) (b : bytes) : bytes :=
  take pos c ++ replicate (pos - length c) x00 ++ b
  ++ drop (pos + length b) c.

(** A file's bytes after a file object writes [b]: at the end when it
    appends, at its position otherwise. *)
Definition written (f : FileIO.t) (c b : bytes) : bytes :=
  if FileIO.appending f then c ++ b
  else overwrite c (Z.to_nat (FileIO.pos f)) b.

(** Where a file object stands after writing [b] to a file that held
    [c]. *)
Definition written_pos (f : FileIO.t) (c b : bytes) : Z :=
  if FileIO.appending f then len c + len b else FileIO.pos f + len b.

(** The bytes a read of [sz] takes from a file that holds [c], from
    position [pos]. *)
Definition slice_from (c : bytes) (pos : Z) (sz : option Z) : bytes :=
  let rest := drop (Z.to_nat pos) c in
  match sz with
  | None => rest
  | Some n => if n <? 0 then rest else take (Z.to_nat n) rest
  end.

(** What a session of one write uploads, from what was fetched: an append
    adds to it, a mode with [w] replaces it, an update overwrites its
    start. *)
Definition session_bytes (mode : string) (fetched b : bytes) : bytes :=
  if char_in "a" mode then fetched ++ b
  else if char_in "w" mode then b
  else b ++ drop (length b) fetched.

(** ** Sessions that only read *)

(** The client calls that look the object up and change nothing. *)
Definition lookup_only (c : call) : bool :=
  match c with
  | CallExists | CallGetSize | CallReadBytes _ _ => true
  | CallDownload | CallUpload _ => false
  end.

(** The operations that ask for no write and no mirror. *)
Definition reads_only (o : op) : bool :=
  match o with
  | OpRead _ | OpSeek _ _ | OpTell | OpSize => true
  | OpWrite _ | OpLocal => false
  end.

(** Between [w] and [w'] the client was only asked lookups: there is no
    mirror, and the disk, the object, the temporary path and the inherited
    part of the handle are as they were. *)
Definition untouched {R} (w w' : world R) : Prop :=
  __file_io (self w') = None
  /\ temp_path (self w') = temp_path (self w)
  /\ base (self w') = base (self w)
  /\ disk w' = disk w
  /\ cloud w' = cloud w
  /\ exists extra, calls w' = calls w ++ extra
                   /\ forallb lookup_only extra = true.

(** ** The mode grammar *)

(** The grammar [_set_mode] accepts. *)
Definition valid_mode (mode : string) : Prop :=
  (forall c, In c (chars mode) -> In c (chars "xrwab+"))
  /\ count_in "rwax" mode = 1%nat
  /\ (count_char "+" mode <= 1)%nat.

(** The grammar as the specification words it: no [b]. *)
Definition valid_mode_as_specified (mode : string) : Prop :=
  (forall c, In c (chars mode) -> In c (chars "xrwa+"))
  /\ count_in "xrwa" mode = 1%nat
  /\ (count_char "+" mode <= 1)%nat.

(** The capabilities a mode grants, each read off the mode on its own. *)
Definition granted (mode : string) (h : StorageIOBase) : StorageIOBase :=
  {| _closed := _closed h;
     _mode := Some mode;
     _created := _created h || char_in "x" mode;
     _readable := _readable h || char_in "r" mode || char_in "+" mode;
     _writable := _writable h || char_in "x" mode || char_in "w" mode
                  || char_in "a" mode || char_in "+" mode;
     _appending := _appending h || char_in "a" mode |}.

(** The last byte a remote read asks for: up to the end of the object
    when no size, or size 0, is given; [size] bytes from the offset
    otherwise, whatever the object's size. *)
Definition requested_stop (sz : option Z) (start file_size : Z) : Z :=
  match sz with
  | None => file_size - 1
  | Some n => if n =? 0 then file_size - 1 else start + n - 1
  end.

Lemma char_in_In c s : char_in c s = true <-> In c (chars s).
Proof.
  unfold char_in. rewrite existsb_exists. split.
  - intros (d & Hd & E). apply Ascii.eqb_eq in E. now subst.
  - intros H. exists c. split; [exact H | apply Ascii.eqb_refl].
Qed.

Lemma chars_subset_spec mode allowed :
  chars_subset mode allowed = true <->
  (forall c, In c (chars mode) -> In c (chars allowed)).
Proof.
  unfold chars_subset. rewrite forallb_forall.
  split; intros H c Hc; apply char_in_In; auto.
Qed.

(** A character of the counted class that occurs is counted. *)
Lemma count_pos (P : ascii -> bool) (l : list ascii) c :
  In c l -> P c = true -> (1 <= length (List.filter P l))%nat.
Proof.
  induction l as [|d l IH]; simpl; [tauto|].
  intros [->|Hin] Hc.
  - rewrite Hc. simpl. lia.
  - destruct (P d); simpl; [lia | auto].
Qed.

(** Two different characters of the counted class make the count two. *)
Lemma count_two (P : ascii -> bool) (l : list ascii) c d :
  In c l -> In d l -> c <> d -> P c = true -> P d = true ->
  (2 <= length (List.filter P l))%nat.
Proof.
  induction l as [|a l IH]; simpl; [tauto|].
  intros [->|Hc] [->|Hd] Hne Pc Pd; try congruence.
  - rewrite Pc. simpl. pose proof (count_pos P l d Hd Pd). lia.
  - rewrite Pd. simpl. pose proof (count_pos P l c Hc Pc). lia.
  - specialize (IH Hc Hd Hne Pc Pd). destruct (P a); simpl; lia.
Qed.

Lemma kinds_exclusive mode c d :
  count_in "rwax" mode = 1%nat ->
  char_in c "rwax" = true -> char_in d "rwax" = true -> c <> d ->
  char_in c mode = true -> char_in d mode = false.
Proof.
  intros Hcount Pc Pd Hne Hc.
  destruct (char_in d mode) eqn:Hd; [|reflexivity].
  apply char_in_In in Hc, Hd.
  pose proof (count_two (fun a => char_in a "rwax") (chars mode) c d
                Hc Hd Hne Pc Pd) as H.
  unfold count_in in Hcount. lia.
Qed.

Lemma kinds_present mode :
  count_in "rwax" mode = 1%nat ->
  char_in "x" mode || char_in "r" mode || char_in "w" mode
  || char_in "a" mode = true.
Proof.
  unfold count_in. intros H.
  assert (Hex : exists c, In c (chars mode) /\ char_in c "rwax" = true).
  { induction (chars mode) as [|a l IH]; simpl in *; [discriminate|].
    destruct (char_in a "rwax") eqn:E.
    - exists a. auto.
    - destruct (IH H) as (c & Hc & Pc). exists c. auto. }
  destruct Hex as (c & Hc & Pc).
  apply char_in_In in Hc.
  apply char_in_In in Pc. simpl in Pc.
  destruct Pc as [<-|[<-|[<-|[<-|[]]]]]; rewrite Hc;
    repeat rewrite orb_true_r; reflexivity.
Qed.

Lemma valid_mode_checks mode :
  valid_mode mode <->
  chars_subset mode "xrwab+" = true
  /\ Nat.eqb (count_in "rwax" mode) 1 = true
  /\ (1 <? count_char "+" mode)%nat = false.
Proof.
  unfold valid_mode.
  rewrite chars_subset_spec, Nat.eqb_eq, Nat.ltb_ge. reflexivity.
Qed.

Lemma apply_mode_granted mode h :
  count_in "rwax" mode = 1%nat ->
  apply_mode mode (set_mode_attr (Some mode) h) = granted mode h.
Proof.
  intros Hcount.
  pose proof (kinds_present mode Hcount) as Hsome.
  pose proof (fun c d Pc Pd => kinds_exclusive mode c d Hcount Pc Pd) as Hex.
  unfold apply_mode, granted.
  destruct (char_in "x" mode) eqn:Hx.
  - rewrite (Hex "x" "r")%char, (Hex "x" "w")%char, (Hex "x" "a")%char
      by (reflexivity || discriminate || assumption).
    destruct (char_in "+" mode), h as [c m cr r w a];
      simpl; repeat rewrite ?orb_true_r, ?orb_false_r; reflexivity.
  - destruct (char_in "r" mode) eqn:Hr.
    + rewrite (Hex "r" "w")%char, (Hex "r" "a")%char
        by (reflexivity || discriminate || assumption).
      destruct (char_in "+" mode), h as [c m cr r w a];
        simpl; repeat rewrite ?orb_true_r, ?orb_false_r; reflexivity.
    + destruct (char_in "w" mode) eqn:Hw.
      * rewrite (Hex "w" "a")%char
          by (reflexivity || discriminate || assumption).
        destruct (char_in "+" mode), h as [c m cr r w a];
          simpl; repeat rewrite ?orb_true_r, ?orb_false_r; reflexivity.
      * destruct (char_in "a" mode) eqn:Ha; [|discriminate].
        destruct (char_in "+" mode), h as [c m cr r w a];
          simpl; repeat rewrite ?orb_true_r, ?orb_false_r; reflexivity.
Qed.

Lemma set_mode_valid mode h :
  valid_mode mode -> _set_mode mode h = (Ok tt, granted mode h).
Proof.
  intros Hv. pose proof Hv as (_ & Hcount & _).
  apply valid_mode_checks in Hv. destruct Hv as (H1 & H2 & H3).
  unfold _set_mode, bind, modify, raise. rewrite H1, H2, H3. simpl.
  f_equal. now apply apply_mode_granted.
Qed.

Lemma set_mode_invalid mode h :
  ~ valid_mode mode ->
  _set_mode mode h = (Raise ValueError, set_mode_attr (Some mode) h).
Proof.
  intros Hv. rewrite valid_mode_checks in Hv.
  unfold _set_mode, bind, modify, raise.
  destruct (chars_subset mode "xrwab+"); simpl; [|reflexivity].
  destruct (Nat.eqb (count_in "rwax" mode) 1); simpl; [|reflexivity].
  destruct (1 <? count_char "+" mode)%nat; simpl; [reflexivity|].
  exfalso. apply Hv. auto.
Qed.

Lemma valid_mode_dec mode : {valid_mode mode} + {~ valid_mode mode}.
Proof.
  destruct (chars_subset mode "xrwab+") eqn:H1;
    [destruct (Nat.eqb (count_in "rwax" mode) 1) eqn:H2;
     [destruct (1 <? count_char "+" mode)%nat eqn:H3|]|];
    try (left; apply valid_mode_checks; now auto);
    right; rewrite valid_mode_checks; intros (? & ? & ?); congruence.
Qed.

(** C3, as the code has it: [_set_mode] accepts a mode exactly when its
    characters are drawn from x, r, w, a, b and +, exactly one character of
    x, r, w, a occurs in it, and + occurs at most once.  An accepted mode
    adds to the handle's flags: created and writable for x, readable for r,
    writable for w, writable and appending for a, readable and writable for
    +; on a handle just constructed these are exactly the flags set.  Any
    other mode raises ValueError, with no flag changed. *)
Theorem set_mode_grammar (mode : string) (h : StorageIOBase) :
  (fst (_set_mode mode h) = Ok tt <-> valid_mode mode)
  /\ (valid_mode mode -> snd (_set_mode mode h) = granted mode h)
  /\ (valid_mode mode ->
      let h' := snd (_set_mode mode StorageIOBase_init) in
      _created h' = char_in "x" mode
      /\ _readable h' = char_in "r" mode || char_in "+" mode
      /\ _writable h' = char_in "x" mode || char_in "w" mode
                        || char_in "a" mode || char_in "+" mode
      /\ _appending h' = char_in "a" mode)
  /\ (~ valid_mode mode ->
      _set_mode mode h = (Raise ValueError, set_mode_attr (Some mode) h)).
Proof.
  split; [split|split; [|split]].
  - intros H. destruct (valid_mode_dec mode) as [Hv|Hv]; [exact Hv|].
    rewrite (set_mode_invalid mode h Hv) in H. discriminate.
  - intros Hv. now rewrite set_mode_valid.
  - intros Hv. now rewrite set_mode_valid.
  - intros Hv. cbv zeta. rewrite set_mode_valid by assumption.
    simpl. auto.
  - apply set_mode_invalid.
Qed.

(** C3 as stated fails: the mode "rb" holds a character outside x, r, w, a
    and +, and [_set_mode] accepts it. *)
Lemma set_mode_accepts_binary_flag :
  fst (_set_mode "rb" StorageIOBase_init) = Ok tt
  /\ ~ valid_mode_as_specified "rb".
Proof.
  split; [reflexivity|].
  intros (H & _). specialize (H "b"%char). simpl in H.
  assert (Hb : "r"%char = "b"%char \/ "b"%char = "b"%char \/ False) by auto.
  specialize (H Hb).
  repeat (destruct H as [H|H]; [discriminate H|]). exact H.
Qed.

(** ** Capability queries *)

Lemma writable_closed (h : StorageIOBase) :
  _closed h = true -> writable h = false.
Proof.
  unfold writable. intros ->. now rewrite andb_false_r.
Qed.

Lemma writable_open (h : StorageIOBase) :
  writable h = true -> _closed h = false /\ _writable h = true.
Proof.
  unfold writable. destruct (_writable h), (_closed h); simpl; auto; discriminate.
Qed.

Lemma writable_flag_open (h : StorageIOBase) :
  _writable h = true -> _closed h = false -> writable h = true.
Proof. unfold writable. now intros -> ->. Qed.

Lemma base_close_closes (h : StorageIOBase) :
  StorageIOBase_close h = (Raise NotImplementedError, set_closed true h).
Proof. reflexivity. Qed.

(** C10: once a mode that grants reading has been parsed, [readable()] is
    true on the open handle and stays true after the handle is closed: the
    closed flag plays no part in it.  [writable()] is true exactly when the
    write flag is set and the handle is open: it is true on every open
    handle with the write flag, and false on every closed handle whatever
    its mode.  When the mode grants writing too, closing the handle turns
    [writable()] from true to false and leaves [readable()] true. *)
Theorem readable_ignores_closed_writable_does_not
    (mode : string) (h : StorageIOBase) :
  valid_mode mode ->
  char_in "r" mode || char_in "+" mode = true ->
  let parsed := snd (_set_mode mode h) in
  let closed := snd (StorageIOBase_close (set_closed false parsed)) in
  readable (set_closed false parsed) = true
  /\ _closed closed = true
  /\ readable closed = true
  /\ writable closed = false
  /\ (forall h' : StorageIOBase, _closed h' = true -> writable h' = false)
  /\ (forall h' : StorageIOBase,
        writable h' = true -> _closed h' = false /\ _writable h' = true)
  /\ (forall h' : StorageIOBase,
        _writable h' = true -> _closed h' = false -> writable h' = true)
  /\ (forall (h' : StorageIOBase) (v : bool),
        readable (set_closed v h') = readable h'
        /\ writable (set_closed v h') = _writable h' && negb v)
  /\ (char_in "+" mode = true ->
      writable (set_closed false parsed) = true
      /\ readable (set_closed false parsed) = true
      /\ writable closed = false
      /\ readable closed = true).
Proof.
  intros Hv Hr. cbv zeta.
  rewrite set_mode_valid by assumption.
  rewrite base_close_closes.
  assert (Hrd : _readable (granted mode h) = true).
  { simpl. rewrite <- orb_assoc, Hr. apply orb_true_r. }
  assert (Hro : readable (set_closed false (granted mode h)) = true).
  { unfold readable. simpl in *. now rewrite Hrd. }
  assert (Hrc : readable (set_closed true (set_closed false (granted mode h)))
                = true).
  { unfold readable. simpl in *. now rewrite Hrd. }
  split; [exact Hro|]. split; [reflexivity|]. split; [exact Hrc|].
  split; [now apply writable_closed|].
  split; [apply writable_closed|].
  split; [apply writable_open|].
  split; [apply writable_flag_open|].
  split.
  - intros h' v. unfold readable, writable. simpl.
    split; [reflexivity|]. now destruct (_writable h' && negb v).
  - intros Hplus.
    split; [|split; [exact Hro|split; [now apply writable_closed|exact Hrc]]].
    apply writable_flag_open; [|reflexivity].
    simpl. rewrite Hplus. apply orb_true_r.
Qed.

(** In mode "r+" the handle is readable and writable while open; once
    closed it is still readable and no longer writable. *)
Lemma readable_ignores_closed_writable_does_not_witness :
  let opened := set_closed false (snd (_set_mode "r+" StorageIOBase_init)) in
  let closed := snd (StorageIOBase_close opened) in
  (readable opened = true /\ writable opened = true)
  /\ (readable closed = true /\ writable closed = false).
Proof.
  assert (Hv : valid_mode "r+").
  { apply valid_mode_checks. repeat split; reflexivity. }
  pose proof (readable_ignores_closed_writable_does_not "r+" StorageIOBase_init
                Hv eq_refl) as (_ & _ & _ & _ & _ & _ & _ & _ & H).
  destruct (H eq_refl) as (Hwo & Hro & Hwc & Hrc).
  split; [split; [exact Hro | exact Hwo] | split; [exact Hrc | exact Hwc]].
Defined.

(** ** The handle without a mirror *)

Ltac unfold_monad :=
  unfold bind, ret, raise, get, modify in *.

Section Unmirrored.

Context {R : Type} `{Client : CloudClient R}.

Lemma size_unmirrored (w : world R) :
  __file_io (self w) = None ->
  size w = (get_size (cloud w), record_call CallGetSize w).
Proof.
  intros H. unfold size. unfold_monad. now rewrite H.
Qed.

Lemma size_mirrored (w : world R) (f : FileIO.t) :
  __file_io (self w) = Some f -> size w = (Raise TypeError, w).
Proof.
  intros H. unfold size. unfold_monad. now rewrite H.
Qed.

Lemma seek_unmirrored (w : world R) pos whence :
  __file_io (self w) = None -> seek pos whence w = _seek pos whence w.
Proof.
  intros H. unfold seek. unfold_monad. now rewrite H.
Qed.

Lemma tell_unmirrored (w : world R) :
  __file_io (self w) = None -> tell w = (Ok (_offset (self w)), w).
Proof.
  intros H. unfold tell. unfold_monad. now rewrite H.
Qed.

Lemma seek_set (w : world R) (pos : Z) :
  __file_io (self w) = None -> 0 <= pos ->
  seek (PyInt pos) 0 w = (Ok pos, with_self (set_offset pos) w).
Proof.
  intros H Hpos. rewrite seek_unmirrored by assumption.
  unfold _seek. unfold_monad. simpl.
  destruct (pos <? 0) eqn:E; [apply Z.ltb_lt in E; lia | reflexivity].
Qed.

Lemma seek_set_negative (w : world R) (pos : Z) :
  __file_io (self w) = None -> pos < 0 ->
  seek (PyInt pos) 0 w = (Raise ValueError, w).
Proof.
  intros H Hpos. rewrite seek_unmirrored by assumption.
  unfold _seek. unfold_monad. simpl.
  destruct (pos <? 0) eqn:E; [reflexivity | apply Z.ltb_ge in E; lia].
Qed.

Lemma seek_cur (w : world R) (pos : Z) :
  __file_io (self w) = None ->
  let target := Z.max 0 (_offset (self w) + pos) in
  seek (PyInt pos) 1 w = (Ok target, with_self (set_offset target) w).
Proof.
  intros H. rewrite seek_unmirrored by assumption. reflexivity.
Qed.

Lemma seek_end (w : world R) (pos n : Z) :
  __file_io (self w) = None -> get_size (cloud w) = Ok n ->
  let target := Z.max 0 (n + pos) in
  seek (PyInt pos) 2 w =
    (Ok target, with_self (set_offset target) (record_call CallGetSize w)).
Proof.
  intros H Hn. rewrite seek_unmirrored by assumption.
  unfold _seek. unfold_monad. simpl.
  rewrite size_unmirrored by assumption. now rewrite Hn.
Qed.

Lemma seek_end_unresolved (w : world R) (pos : Z) (e : exn) :
  __file_io (self w) = None -> get_size (cloud w) = Raise e ->
  seek (PyInt pos) 2 w = (Raise e, record_call CallGetSize w).
Proof.
  intros H Hn. rewrite seek_unmirrored by assumption.
  unfold _seek. unfold_monad. simpl.
  rewrite size_unmirrored by assumption. now rewrite Hn.
Qed.

Lemma seek_bad_whence (w : world R) (pos whence : Z) :
  __file_io (self w) = None ->
  whence <> 0 -> whence <> 1 -> whence <> 2 ->
  seek (PyInt pos) whence w = (Raise ValueError, w).
Proof.
  intros H H0 H1 H2. rewrite seek_unmirrored by assumption.
  unfold _seek. unfold_monad.
  destruct (whence =? 0) eqn:E0; [apply Z.eqb_eq in E0; contradiction|].
  destruct (whence =? 1) eqn:E1; [apply Z.eqb_eq in E1; contradiction|].
  destruct (whence =? 2) eqn:E2; [apply Z.eqb_eq in E2; contradiction|].
  reflexivity.
Qed.

Lemma seek_non_integer (w : world R) (v : pyval) (whence : Z) :
  __file_io (self w) = None -> (forall n, v <> PyInt n) ->
  seek v whence w = (Raise TypeError, w).
Proof.
  intros H Hv. rewrite seek_unmirrored by assumption.
  destruct v; try reflexivity. now destruct (Hv n).
Qed.

(** C8: without a mirror, [seek(pos, 0)] sets the offset to [pos] and
    raises ValueError for a negative [pos]; [seek(pos, 1)] sets it to
    [max(0, offset + pos)]; [seek(pos, 2)] looks the size up and sets the
    offset to [max(0, size + pos)], failing with the lookup's error (NotFound
    for an object that does not exist) when the size cannot be had; any
    other [whence] raises ValueError, and a [pos] that is not an integer
    raises TypeError. *)
Theorem seek_without_mirror (w : world R) (pos : Z) :
  __file_io (self w) = None ->
  (0 <= pos ->
     seek (PyInt pos) 0 w = (Ok pos, with_self (set_offset pos) w))
  /\ (pos < 0 -> seek (PyInt pos) 0 w = (Raise ValueError, w))
  /\ seek (PyInt pos) 1 w =
       (Ok (Z.max 0 (_offset (self w) + pos)),
        with_self (set_offset (Z.max 0 (_offset (self w) + pos))) w)
  /\ (forall n, get_size (cloud w) = Ok n ->
        seek (PyInt pos) 2 w =
          (Ok (Z.max 0 (n + pos)),
           with_self (set_offset (Z.max 0 (n + pos)))
             (record_call CallGetSize w)))
  /\ (get_size (cloud w) = Raise FileNotFoundError ->
        seek (PyInt pos) 2 w =
          (Raise FileNotFoundError, record_call CallGetSize w))
  /\ (forall whence, whence <> 0 -> whence <> 1 -> whence <> 2 ->
        seek (PyInt pos) whence w = (Raise ValueError, w))
  /\ (forall v whence, (forall n, v <> PyInt n) ->
        seek v whence w = (Raise TypeError, w)).
Proof.
  intros H. repeat apply conj.
  - now apply seek_set.
  - now apply seek_set_negative.
  - now apply seek_cur.
  - intros n Hn. now apply seek_end.
  - now apply seek_end_unresolved.
  - intros. now apply seek_bad_whence.
  - intros. now apply seek_non_integer.
Qed.

End Unmirrored.

(** A 100-byte object, the handle's offset anywhere: [seek(-10, 2)] lands on
    90; on a missing object the same call fails with NotFound. *)
Lemma seek_without_mirror_witness :
  fst (seek (PyInt (-10)) 2 (fresh_world (existing (replicate 100 x00))))
  = Ok 90
  /\ fst (seek (PyInt (-10)) 2 (fresh_world missing))
     = Raise FileNotFoundError.
Proof.
  split.
  - pose proof (seek_without_mirror
                  (fresh_world (existing (replicate 100 x00))) (-10) eq_refl)
      as (_ & _ & _ & H & _).
    rewrite (H 100 eq_refl). reflexivity.
  - pose proof (seek_without_mirror (fresh_world missing) (-10) eq_refl)
      as (_ & _ & _ & _ & H & _).
    rewrite (H eq_refl). reflexivity.
Defined.

Lemma bind_ok {S A B} (m : M S A) (k : A -> M S B) s a s' :
  m s = (Ok a, s') -> bind m k s = k a s'.
Proof. unfold bind. now intros ->. Qed.

Lemma bind_raise {S A B} (m : M S A) (k : A -> M S B) s e s' :
  m s = (Raise e, s') -> bind m k s = (Raise e, s').
Proof. unfold bind. now intros ->. Qed.

Lemma insert_sorted_existsb (p : ascii -> bool) c l :
  existsb p (insert_sorted c l) = p c || existsb p l.
Proof.
  induction l as [|d l IH]; simpl; [reflexivity|].
  destruct (N_of_ascii c <=? N_of_ascii d)%N; simpl; [reflexivity|].
  rewrite IH. now rewrite !orb_assoc, (orb_comm (p d)).
Qed.

(** [sorted] keeps the characters. *)
Lemma sorted_char_in c s : existsb (Ascii.eqb c) (sorted s) = char_in c s.
Proof.
  unfold sorted, char_in.
  induction (chars s) as [|d l IH]; simpl; [reflexivity|].
  now rewrite insert_sorted_existsb, IH.
Qed.

(** [StorageIOBase.open] with a mode the grammar accepts: the handle is
    open, and its mode has the characters of [mode], whether the mode was
    parsed now or found unchanged. *)
Lemma base_open_valid (mode : string) (b : StorageIOBase) :
  valid_mode mode ->
  exists b' m,
    StorageIOBase_open mode b = (Ok tt, b')
    /\ _closed b' = false /\ _mode b' = Some m
    /\ forall c, char_in c m = char_in c mode.
Proof.
  intros Hv. unfold StorageIOBase_open.
  rewrite (bind_ok get _ b b b eq_refl).
  destruct (_is_same_mode mode b) eqn:Hsame.
  - unfold _is_same_mode in Hsame.
    destruct (_mode b) as [m|] eqn:Hm; [|discriminate].
    destruct m as [|a m']; [discriminate|].
    destruct (String.eqb mode EmptyString) eqn:He.
    + apply String.eqb_eq in He. subst mode.
      destruct Hv as (_ & Hc & _). discriminate Hc.
    + apply bool_decide_eq_true in Hsame.
      exists (set_closed false b), (String a m').
      repeat split; [exact Hm|].
      intros c. now rewrite <- !sorted_char_in, Hsame.
  - rewrite (bind_ok _ _ _ tt (granted mode b) (set_mode_valid mode b Hv)).
    exists (set_closed false (granted mode b)), mode.
    repeat split.
Qed.

Section RemoteOnly.

Context {R : Type} `{Client : CloudClient R}.

Lemma close_without_mirror (w : world R) :
  __file_io (self w) = None -> temp_path (self w) = None ->
  close w = (Ok tt, w).
Proof.
  intros Hf Ht. unfold close. unfold_monad.
  destruct (_closed (base (self w))); [reflexivity|].
  now rewrite Hf, Ht.
Qed.

Lemma read_missing (w : world R) sz :
  __file_io (self w) = None -> client_exists (cloud w) = false ->
  read sz w = (Raise FileNotFoundError, record_call CallExists w).
Proof.
  intros Hf He. unfold read.
  rewrite (bind_ok _ _ _ _ _ (tell_unmirrored w Hf)).
  unfold_monad. rewrite Hf. unfold exists_. now rewrite He.
Qed.

Lemma read_nothing (w : world R) sz n :
  __file_io (self w) = None -> client_exists (cloud w) = true ->
  get_size (cloud w) = Ok n -> n = 0 \/ n < _offset (self w) ->
  read sz w =
    (Ok [], record_call CallGetSize (record_call CallExists w)).
Proof.
  intros Hf He Hn Hcase. unfold read.
  rewrite (bind_ok _ _ _ _ _ (tell_unmirrored w Hf)).
  unfold_monad. rewrite Hf. unfold exists_. rewrite He. simpl.
  rewrite size_unmirrored by assumption. simpl. rewrite Hn.
  destruct (n =? 0) eqn:E0; [reflexivity|].
  destruct (n <? _offset (self w)) eqn:E1; [reflexivity|].
  apply Z.eqb_neq in E0. apply Z.ltb_ge in E1. lia.
Qed.

Lemma read_range (w : world R) sz n b :
  __file_io (self w) = None -> client_exists (cloud w) = true ->
  get_size (cloud w) = Ok n -> n <> 0 -> _offset (self w) <= n ->
  let start := _offset (self w) in
  let stop := requested_stop sz start n in
  read_bytes (cloud w) start stop = Ok b ->
  read sz w =
    (Ok b,
     with_self (set_offset (start + len b))
       (record_call (CallReadBytes start stop)
          (record_call CallGetSize (record_call CallExists w)))).
Proof.
  intros Hf He Hn Hn0 Hle start stop Hb. unfold read.
  rewrite (bind_ok _ _ _ _ _ (tell_unmirrored w Hf)).
  unfold_monad. rewrite Hf. unfold exists_. rewrite He. simpl.
  rewrite size_unmirrored by assumption. simpl. rewrite Hn.
  destruct (n =? 0) eqn:E0; [apply Z.eqb_eq in E0; contradiction|].
  destruct (n <? _offset (self w)) eqn:E1; [apply Z.ltb_lt in E1; lia|].
  unfold call_read_bytes. simpl.
  fold start. change (match sz with
                      | Some n0 => if n0 =? 0 then n - 1 else start + n0 - 1
                      | None => n - 1
                      end) with stop.
  rewrite Hb. reflexivity.
Qed.

(** C2, as the code has it: without a mirror, [read(size)] at offset
    [start] raises FileNotFoundError when the object does not exist,
    returns no bytes when the object's size is 0 or [start] exceeds it, and
    otherwise issues one ranged read from [start] to [start + size - 1]
    (to the object's last byte when [size] is None or 0), returns its bytes
    and advances the offset by their number.  The end of the range is not
    capped by the object's size. *)
Theorem read_without_mirror (w : world R) (sz : option Z) :
  __file_io (self w) = None ->
  let start := _offset (self w) in
  (client_exists (cloud w) = false ->
     read sz w = (Raise FileNotFoundError, record_call CallExists w))
  /\ (forall n, client_exists (cloud w) = true ->
        get_size (cloud w) = Ok n -> n = 0 \/ n < start ->
        read sz w =
          (Ok [], record_call CallGetSize (record_call CallExists w)))
  /\ (forall n b, client_exists (cloud w) = true ->
        get_size (cloud w) = Ok n -> n <> 0 -> start <= n ->
        read_bytes (cloud w) start (requested_stop sz start n) = Ok b ->
        read sz w =
          (Ok b,
           with_self (set_offset (start + len b))
             (record_call (CallReadBytes start (requested_stop sz start n))
                (record_call CallGetSize (record_call CallExists w))))).
Proof.
  intros Hf start. repeat apply conj.
  - now apply read_missing.
  - intros n. now apply read_nothing.
  - intros n b He Hn Hn0 Hle Hb. now apply read_range.
Qed.

End RemoteOnly.

(** A 12-byte object read from offset 0 with [size = 5]: the range is
    [0, 4], five bytes come back and the offset is 5. *)
Lemma read_without_mirror_witness :
  fst (read (Some 5) (fresh_world (existing hello)))
  = Ok (list_byte_of_string "hello")
  /\ _offset (self (snd (read (Some 5) (fresh_world (existing hello))))) = 5.
Proof.
  pose proof (read_without_mirror (fresh_world (existing hello)) (Some 5)
                eq_refl) as (_ & _ & H).
  rewrite (H 12 (list_byte_of_string "hello") eq_refl eq_refl
             ltac:(discriminate) ltac:(discriminate) eq_refl).
  split; reflexivity.
Defined.

(** C2 as stated fails: on a 12-byte object, [read(50)] at offset 0 asks the
    client for the range [0, 49], not for [0, min(12 - 1, 0 + 50 - 1)]. *)
Lemma read_range_is_not_capped :
  len hello = 12
  /\ calls (snd (read (Some 50) (fresh_world (existing hello))))
     = [CallExists; CallGetSize; CallReadBytes 0 49]
  /\ 49 <> Z.min (12 - 1) (0 + 50 - 1).
Proof.
  split; [reflexivity|]. split; [reflexivity|]. discriminate.
Qed.

Section Append.

Context {R : Type} `{Client : CloudClient R}.

(** [open] up to and including [seek(0)], for a mode the grammar accepts:
    [w1] is the state after the [close] that [open] makes first on an open
    handle, and holds no file object. *)
Lemma open_prefix (w w1 : world R) (mode : string) :
  (if negb (_closed (base (self w))) then close else ret tt) w = (Ok tt, w1) ->
  __file_io (self w1) = None ->
  valid_mode mode ->
  exists b m,
    _closed b = false /\ _mode b = Some m
    /\ (forall c, char_in c m = char_in c mode)
    /\ open mode w =
       (if char_in "a" m then seek (PyInt 0) 2 ;;; ret tt
        else if char_in "w" m then local
        else ret tt)
         (with_self (set_offset 0) (with_self (set_base b) w1)).
Proof.
  intros H1 Hf Hv.
  destruct (base_open_valid mode (base (self w1)) Hv)
    as (b & m & Hopen & Hclosed & Hmode & Hchars).
  exists b, m. repeat split; try assumption.
  unfold open.
  rewrite (bind_ok get _ w w w eq_refl).
  rewrite (bind_ok _ _ _ _ _ H1).
  assert (H2 : inherited (StorageIOBase_open mode) w1
               = (Ok tt, with_self (set_base b) w1)).
  { unfold inherited. now rewrite Hopen. }
  rewrite (bind_ok _ _ _ _ _ H2).
  unfold modify at 1. unfold bind at 1.
  assert (H3 : with_self (fun h => set_base (set_closed false (base h)) h)
                 (with_self (set_base b) w1)
               = with_self (set_base b) w1).
  { unfold with_self, set_base. simpl. destruct b; simpl in *.
    now subst. }
  rewrite H3.
  assert (H4 : seek (PyInt 0) 0 (with_self (set_base b) w1)
               = (Ok 0, with_self (set_offset 0) (with_self (set_base b) w1))).
  { apply seek_set; [exact Hf | lia]. }
  rewrite (bind_ok _ _ _ _ _ H4).
  assert (H5 : mode_str (with_self (set_offset 0) (with_self (set_base b) w1))
               = (Ok m, with_self (set_offset 0) (with_self (set_base b) w1))).
  { unfold mode_str. unfold_monad. simpl. now rewrite Hmode. }
  rewrite (bind_ok _ _ _ _ _ H5). reflexivity.
Qed.

End Append.

Lemma valid_mode_a : valid_mode "a".
Proof. apply valid_mode_checks. repeat split; reflexivity. Qed.

(** ** The mirrored handle *)

Section Mirrored.

Context {R : Type} `{Client : CloudClient R}.

Lemma mirror_kept_refl (w : world R) : is_Some (__file_io (self w)) -> mirror_kept w w.
Proof. unfold mirror_kept. auto 10. Qed.

Lemma mirror_kept_trans (w1 w2 w3 : world R) :
  mirror_kept w1 w2 -> mirror_kept w2 w3 -> mirror_kept w1 w3.
Proof.
  unfold mirror_kept.
  intros (_ & A1 & A2 & A3 & A4 & A5) (B0 & B1 & B2 & B3 & B4 & B5).
  repeat split; try assumption; congruence.
Qed.

Lemma keeps_ret {A} (a : A) : keeps (R := R) (ret a).
Proof. intros w H. now apply mirror_kept_refl. Qed.

Lemma keeps_raise {A} e : keeps (R := R) (@raise _ A e).
Proof. intros w H. now apply mirror_kept_refl. Qed.

Lemma keeps_bind {A B} (m : M (world R) A) (k : A -> M (world R) B) :
  keeps (R := R) m -> (forall a, keeps (R := R) (k a)) ->
  keeps (R := R) (bind m k).
Proof.
  intros Hm Hk w H. specialize (Hm w H). unfold bind.
  destruct (m w) as [[a|e] w1]; simpl in *; [|exact Hm].
  eapply mirror_kept_trans; [exact Hm|]. apply Hk. apply Hm.
Qed.

(** A method that starts by looking at the handle. *)
Lemma keeps_get_bind {A} (k : world R -> M (world R) A) :
  (forall w, is_Some (__file_io (self w)) -> mirror_kept w (snd (k w w))) ->
  keeps (R := R) (bind get k).
Proof. intros Hk w H. unfold bind, get. now apply Hk. Qed.

Lemma keeps_set_offset (f : CloudStorageIO -> Z) :
  keeps (R := R) (modify (with_self (fun h => set_offset (f h) h))).
Proof. intros w H. unfold modify, mirror_kept. simpl. auto 10. Qed.

Lemma keeps_on_file_io {A}
    (op : FileIO.t -> gmap positive bytes ->
          outcome A * FileIO.t * gmap positive bytes) :
  (forall f d, dom (snd (op f d)) = dom d) -> keeps (R := R) (on_file_io op).
Proof.
  intros Hop w [f Hf]. unfold on_file_io. rewrite Hf.
  specialize (Hop f (disk w)).
  destruct (op f (disk w)) as [[r f'] d']. simpl in *.
  unfold mirror_kept. simpl. eauto 10.
Qed.

Lemma keeps_file_io_tell : keeps (R := R) file_io_tell.
Proof. apply keeps_on_file_io. reflexivity. Qed.

Lemma keeps_file_io_seek p whence : keeps (R := R) (file_io_seek p whence).
Proof. apply keeps_on_file_io. reflexivity. Qed.

Lemma keeps_file_io_read sz : keeps (R := R) (file_io_read sz).
Proof. apply keeps_on_file_io. reflexivity. Qed.

Lemma keeps_file_io_write b : keeps (R := R) (file_io_write b).
Proof.
  apply keeps_on_file_io. intros f d. unfold FileIO.write.
  destruct (FileIO.closed f); [reflexivity|].
  destruct (FileIO.writable f); simpl; [|reflexivity].
  destruct (d !! FileIO.name f) as [c|] eqn:E; [|reflexivity].
  destruct (FileIO.appending f); simpl;
    apply dom_insert_lookup_L; rewrite E; eauto.
Qed.

Lemma keeps_tell : keeps (R := R) tell.
Proof.
  unfold tell. apply keeps_get_bind. intros w [f Hf]. rewrite Hf.
  apply keeps_bind; [| |rewrite Hf; eauto].
  - apply keeps_bind; [apply keeps_file_io_tell|].
    intros p. apply (keeps_set_offset (fun _ => p)).
  - intros _. apply keeps_get_bind. intros w' H. now apply mirror_kept_refl.
Qed.

Lemma keeps_seek pos whence : keeps (R := R) (seek pos whence).
Proof.
  unfold seek. apply keeps_get_bind. intros w [f Hf]. rewrite Hf.
  apply keeps_bind; [apply keeps_file_io_seek| |rewrite Hf; eauto].
  intros p. apply keeps_bind; [apply (keeps_set_offset (fun _ => p))|].
  intros _. apply keeps_ret.
Qed.

Lemma keeps_size : keeps (R := R) size.
Proof.
  intros w [f Hf]. rewrite (size_mirrored w f Hf).
  apply mirror_kept_refl. simpl. rewrite Hf. eauto.
Qed.

Lemma keeps_local : keeps (R := R) local.
Proof.
  unfold local. apply keeps_get_bind. intros w [f Hf]. rewrite Hf.
  apply mirror_kept_refl. simpl. rewrite Hf. eauto.
Qed.

Lemma keeps_add_offset n : keeps (R := R) (add_offset n).
Proof. apply (keeps_set_offset (fun h => _offset h + n)). Qed.

Lemma keeps_read sz : keeps (R := R) (read sz).
Proof.
  unfold read. apply keeps_bind; [apply keeps_tell|].
  intros start. apply keeps_get_bind. intros w [f Hf]. rewrite Hf.
  apply keeps_bind; [apply keeps_file_io_seek| |rewrite Hf; eauto].
  intros _. apply keeps_bind; [apply keeps_file_io_read|].
  intros b. apply keeps_bind; [apply keeps_add_offset|].
  intros _. apply keeps_ret.
Qed.

Lemma keeps_write_to_mirror b : keeps (R := R) (write_to_mirror b).
Proof.
  unfold write_to_mirror. apply keeps_bind; [apply keeps_tell|].
  intros p. apply keeps_bind; [apply keeps_file_io_seek|].
  intros _. apply keeps_bind; [apply keeps_file_io_write|].
  intros n. apply keeps_bind; [apply keeps_add_offset|].
  intros _. apply keeps_ret.
Qed.

Lemma keeps_write b : keeps (R := R) (write b).
Proof.
  unfold write. apply keeps_get_bind. intros w H.
  destruct (_closed (base (self w))); [now apply mirror_kept_refl|].
  apply (keeps_bind local (fun _ => write_to_mirror b));
    [apply keeps_local | intros _; apply keeps_write_to_mirror | exact H].
Qed.

Lemma keeps_step o : forall w,
  is_Some (__file_io (self w)) -> mirror_kept w (step o w).
Proof.
  destruct o; simpl.
  - apply keeps_read.
  - apply keeps_write.
  - apply keeps_seek.
  - apply keeps_tell.
  - apply keeps_size.
  - apply keeps_local.
Qed.

Lemma keeps_run ops : forall w,
  is_Some (__file_io (self w)) -> mirror_kept w (run ops w).
Proof.
  induction ops as [|o ops IH]; intros w H; simpl.
  - now apply mirror_kept_refl.
  - pose proof (keeps_step o w H) as Hs.
    eapply mirror_kept_trans; [exact Hs|]. apply IH. apply Hs.
Qed.

End Mirrored.

Section MirrorSessions.

Context {R : Type} `{Client : CloudClient R}.

(** [local] leaves a mirror behind whenever it returns. *)
Lemma local_ok_mirrored (w : world R) :
  fst (local w) = Ok tt -> is_Some (__file_io (self (snd (local w)))).
Proof.
  unfold local. unfold_monad.
  destruct (__file_io (self w)) as [f|] eqn:Hf; simpl.
  - intros _. rewrite Hf. eauto.
  - unfold create_temp_file, exists_, mode_str, call_download.
    unfold_monad. simpl.
    repeat (case_match; simpl in *; simplify_eq; try discriminate; eauto).
Qed.

Lemma write_ok_mirrored (w : world R) (b : bytes) (n : Z) :
  fst (write b w) = Ok n -> is_Some (__file_io (self (snd (write b w)))).
Proof.
  unfold write. rewrite (bind_ok get _ w w w eq_refl).
  destruct (_closed (base (self w))); [discriminate|].
  change (fst (bind local (fun _ => write_to_mirror b) w) = Ok n ->
          is_Some (__file_io (self (snd (bind local
                                           (fun _ => write_to_mirror b) w))))).
  pose proof (local_ok_mirrored w) as Hl.
  unfold bind. destruct (local w) as [[[]|e] w'] eqn:E; simpl in *;
    [|discriminate].
  intros _. apply (keeps_write_to_mirror b w'). now apply Hl.
Qed.

(** [close] that raises: the handle is still open, its file object is
    dropped, and the rest of it is as it was. *)
Lemma close_raises (w : world R) (e : exn) :
  fst (close w) = Raise e ->
  _closed (base (self (snd (close w)))) = false
  /\ __file_io (self (snd (close w))) = None
  /\ temp_path (self (snd (close w))) = temp_path (self w)
  /\ _offset (self (snd (close w))) = _offset (self w)
  /\ disk (snd (close w)) = disk w.
Proof.
  destruct w as [[b o tp fio] d r cs].
  unfold close, open_rb, call_upload, __rm_temp.
  unfold_monad. simpl.
  destruct (_closed b) eqn:Hc; simpl; [intros H; discriminate H|].
  destruct fio as [f|]; [destruct (FileIO.closed f)|]; simpl.
  all: destruct tp as [p|]; simpl; [|intros H; discriminate H].
  all: destruct (d !! p) as [c|] eqn:Hp; simpl; [|now auto].
  all: destruct (upload c r) as [[[]|e'] r'] eqn:Hu; simpl; [|now auto].
  all: rewrite Hp; rewrite bool_decide_eq_true_2 by eauto.
  all: simpl; intros H; discriminate H.
Qed.

(** [close] on an open handle drops the file object, however it ends. *)
Lemma close_drops_file_io (w : world R) :
  _closed (base (self w)) = false ->
  __file_io (self (snd (close w))) = None.
Proof.
  destruct w as [[b o tp fio] d r cs]. simpl. intros Hc.
  unfold close, open_rb, call_upload, __rm_temp.
  unfold_monad. simpl. rewrite Hc.
  destruct fio as [f|]; [destruct (FileIO.closed f)|]; simpl.
  all: destruct tp as [p|]; simpl; [|reflexivity].
  all: destruct (d !! p) as [c|] eqn:Hp; simpl; [|reflexivity].
  all: destruct (upload c r) as [[[]|e'] r'] eqn:Hu; simpl; [|reflexivity].
  all: rewrite Hp; rewrite bool_decide_eq_true_2 by eauto.
  all: reflexivity.
Qed.

(** A read without a file object asks the client, whatever comes of it. *)
Lemma read_unmirrored_asks (w : world R) (sz : option Z) :
  __file_io (self w) = None ->
  exists rest, calls (snd (read sz w)) = calls w ++ CallExists :: rest.
Proof.
  destruct w as [[bs o tp fio] d r cs]. simpl. intros ->.
  unfold read, tell, exists_, size, call_get_size, call_read_bytes,
    add_offset.
  unfold_monad. simpl.
  destruct (client_exists r); simpl; [|now exists []].
  destruct (get_size r) as [n|e]; simpl;
    [|exists [CallGetSize]; now rewrite <- app_assoc].
  destruct (n =? 0); simpl;
    [exists [CallGetSize]; now rewrite <- app_assoc|].
  destruct (n <? o); simpl;
    [exists [CallGetSize]; now rewrite <- app_assoc|].
  match goal with
  | |- context [read_bytes r ?a ?b] =>
      destruct (read_bytes r a b); simpl;
      exists [CallGetSize; CallReadBytes a b]; now rewrite <- !app_assoc
  end.
Qed.

(** C7, as the code has it.  Once a write has returned the handle holds the
    mirror, and through every sequence of read, write, seek, tell, size and
    local calls that follows it keeps it and the client is not called:
    the calls made to it, ranged reads among them, are those made before.
    This lasts until [close] is called.  [close] drops the mirror's file
    object before it uploads; when it raises, the handle is still open and
    holds no file object, so every read that follows asks the client, and
    issues a ranged read when the object exists, is not empty and reaches
    the offset. *)
Theorem mirror_serves_session
    (w : world R) (b : bytes) (n : Z) (ops : list op) :
  fst (write b w) = Ok n ->
  let w1 := snd (write b w) in
  let w2 := run ops w1 in
  is_Some (__file_io (self w2))
  /\ calls w2 = calls w1
  /\ (forall sz, calls (snd (read sz w2)) = calls w1)
  /\ (forall start stop,
        In (CallReadBytes start stop) (calls w2) ->
        In (CallReadBytes start stop) (calls w1))
  /\ (forall e, fst (close w2) = Raise e ->
        let w3 := snd (close w2) in
        let start := _offset (self w3) in
        _closed (base (self w3)) = false
        /\ __file_io (self w3) = None
        /\ (forall sz, exists rest,
              calls (snd (read sz w3)) = calls w3 ++ CallExists :: rest)
        /\ (forall sz size data,
              client_exists (cloud w3) = true ->
              get_size (cloud w3) = Ok size -> size <> 0 -> start <= size ->
              read_bytes (cloud w3) start (requested_stop sz start size)
              = Ok data ->
              fst (read sz w3) = Ok data
              /\ calls (snd (read sz w3))
                 = calls w3
                   ++ [CallExists; CallGetSize;
                       CallReadBytes start (requested_stop sz start size)])).
Proof.
  intros Hw w1 w2. pose proof (write_ok_mirrored w b n Hw) as Hm.
  fold w1 in Hm.
  pose proof (keeps_run ops w1 Hm) as (H1 & H2 & _).
  fold w2 in H1, H2.
  split; [exact H1|]. split; [exact H2|]. split; [|split].
  - intros sz. pose proof (keeps_read sz w2 H1) as (_ & H3 & _).
    congruence.
  - intros start stop. now rewrite H2.
  - intros e He w3 start.
    destruct (close_raises w2 e He) as (Hc & Hf & _).
    fold w3 in Hc, Hf.
    split; [exact Hc|]. split; [exact Hf|]. split.
    + intros sz. now apply read_unmirrored_asks.
    + intros sz size data Hex Hsz Hne Hle Hrb.
      rewrite (read_range w3 sz size data Hf Hex Hsz Hne Hle Hrb).
      split; [reflexivity|]. simpl. now rewrite <- !app_assoc.
Qed.

(** [local] on a handle without a mirror: when it returns, one file has
    been created, under a name that was free, and the handle records
    it. *)
Lemma local_creates_one_file (w : world R) :
  __file_io (self w) = None -> fst (local w) = Ok tt ->
  let p := fresh (dom (disk w)) in
  disk w !! p = None
  /\ temp_path (self (snd (local w))) = Some p
  /\ dom (disk (snd (local w))) = {[p]} ∪ dom (disk w).
Proof.
  destruct w as [[b o tp fio] d r cs]. simpl. intros ->.
  assert (Hfresh : d !! fresh (dom d) = None).
  { apply not_elem_of_dom. apply is_fresh. }
  unfold local, create_temp_file, exists_, mode_str, call_download.
  unfold FileIO.open. unfold_monad. simpl.
  repeat (case_match; simpl in *; simplify_eq; try discriminate).
  all: intros _; split; [exact Hfresh|]; split; [reflexivity|].
  all: try match goal with
           | H : <[_ := _]> _ !! _ = None |- _ =>
               rewrite lookup_insert_eq in H; discriminate H
           end.
  all: simpl; rewrite ?dom_insert_L, ?(assoc_L (∪)), ?union_idemp_L;
    reflexivity.
Qed.

(** [close] on an open handle whose mirror file is recorded: when it
    returns, the file is gone and the handle is closed. *)
Lemma close_ok_removes (w : world R) (p : positive) :
  _closed (base (self w)) = false -> temp_path (self w) = Some p ->
  fst (close w) = Ok tt ->
  disk (snd (close w)) = delete p (disk w)
  /\ temp_path (self (snd (close w))) = None
  /\ __file_io (self (snd (close w))) = None
  /\ _closed (base (self (snd (close w)))) = true.
Proof.
  destruct w as [[b o tp fio] d r cs]. simpl. intros Hc -> .
  unfold close, open_rb, call_upload, __rm_temp.
  unfold_monad. simpl. rewrite Hc.
  destruct fio as [f|]; [destruct (FileIO.closed f)|]; simpl.
  all: destruct (d !! p) as [c|] eqn:Hp; simpl.
  all: try (intros H; discriminate H).
  all: destruct (upload c r) as [[[]|e] r'] eqn:Hu; simpl.
  all: try (intros H; discriminate H).
  all: rewrite Hp.
  all: rewrite bool_decide_eq_true_2 by eauto.
  all: simpl; auto.
Qed.

(** [close] raises what [upload] raises, and then leaves the mirror file
    where it is. *)
Lemma close_upload_fails (w : world R) (p : positive) (c : bytes) e r' :
  _closed (base (self w)) = false -> temp_path (self w) = Some p ->
  disk w !! p = Some c -> upload c (cloud w) = (Raise e, r') ->
  fst (close w) = Raise e
  /\ disk (snd (close w)) = disk w
  /\ temp_path (self (snd (close w))) = Some p
  /\ _closed (base (self (snd (close w)))) = false.
Proof.
  destruct w as [[b o tp fio] d r cs]. simpl. intros Hc -> Hp Hu.
  unfold close, open_rb, call_upload.
  unfold_monad. simpl. rewrite Hc.
  destruct fio as [f|]; [destruct (FileIO.closed f)|]; simpl.
  all: rewrite Hp; simpl; rewrite Hu; simpl; auto.
Qed.

(** A write that returns on a handle without a file object has made a
    new temporary file, under a name that was free, and the handle records
    that one. *)
Lemma write_makes_new_mirror (w : world R) (b : bytes) (n : Z) :
  __file_io (self w) = None -> fst (write b w) = Ok n ->
  let p' := fresh (dom (disk w)) in
  disk w !! p' = None
  /\ temp_path (self (snd (write b w))) = Some p'
  /\ dom (disk (snd (write b w))) = {[p']} ∪ dom (disk w).
Proof.
  intros Hf. unfold write. rewrite (bind_ok get _ w w w eq_refl).
  destruct (_closed (base (self w))); [discriminate|].
  change (fst (bind local (fun _ => write_to_mirror b) w) = Ok n ->
          let p' := fresh (dom (disk w)) in
          disk w !! p' = None
          /\ temp_path (self (snd (bind local
                                     (fun _ => write_to_mirror b) w)))
             = Some p'
          /\ dom (disk (snd (bind local (fun _ => write_to_mirror b) w)))
             = {[p']} ∪ dom (disk w)).
  pose proof (local_ok_mirrored w) as Hm.
  pose proof (local_creates_one_file w Hf) as Hl.
  unfold bind. destruct (local w) as [[[]|e] w'] eqn:E; simpl in *;
    [|discriminate].
  intros _. destruct (Hl eq_refl) as (H1 & H2 & H3).
  destruct (keeps_write_to_mirror b w' (Hm eq_refl))
    as (_ & _ & _ & Hdom & Htp & _).
  split; [exact H1|]. split; [congruence|]. now rewrite Hdom.
Qed.

(** C1, as the code has it.  While the handle holds the mirror's file
    object, no read, write, seek, tell, size or local call puts another file
    on the disk.  When [close] returns, the mirror file is no longer on the
    disk, the handle records no mirror and is closed.  When the upload
    raises, [close] raises the same error, and the mirror file stays on the
    disk, recorded by the handle, which stays open but has dropped the
    file object: a write that returns after that has made a second
    temporary file, and the first is still on the disk. *)
Theorem close_removes_mirror
    (w : world R) (f : FileIO.t) (p : positive) (ops : list op) :
  __file_io (self w) = Some f -> temp_path (self w) = Some p ->
  _closed (base (self w)) = false ->
  let w1 := run ops w in
  let w' := snd (close w1) in
  dom (disk w1) = dom (disk w)
  /\ (fst (close w1) = Ok tt ->
      disk w' !! p = None
      /\ dom (disk w') = dom (disk w) ∖ {[p]}
      /\ temp_path (self w') = None
      /\ __file_io (self w') = None
      /\ _closed (base (self w')) = true)
  /\ (forall c e r',
        disk w1 !! p = Some c -> upload c (cloud w) = (Raise e, r') ->
        fst (close w1) = Raise e
        /\ disk w' !! p = Some c
        /\ temp_path (self w') = Some p
        /\ _closed (base (self w')) = false
        /\ __file_io (self w') = None
        /\ (forall b n, fst (write b w') = Ok n ->
              let w2 := snd (write b w') in
              exists p',
                p' <> p
                /\ disk w' !! p' = None
                /\ temp_path (self w2) = Some p'
                /\ is_Some (disk w2 !! p')
                /\ is_Some (disk w2 !! p))).
Proof.
  intros Hf Ht Hc w1 w'.
  assert (Hm : is_Some (__file_io (self w))) by (rewrite Hf; eauto).
  pose proof (keeps_run ops w Hm) as (_ & _ & Hcloud & Hdom & Htp & Hbase).
  fold w1 in Hcloud, Hdom, Htp, Hbase.
  rewrite Ht in Htp. rewrite <- Hbase in Hc.
  split; [exact Hdom|]. split.
  - intros Hok.
    destruct (close_ok_removes w1 p Hc Htp Hok) as (Hd & H1 & H2 & H3).
    fold w' in Hd, H1, H2, H3.
    repeat split; try assumption.
    + rewrite Hd. apply lookup_delete_eq.
    + rewrite Hd, dom_delete_L. now rewrite Hdom.
  - intros c e r' Hp Hu. rewrite <- Hcloud in Hu.
    destruct (close_upload_fails w1 p c e r' Hc Htp Hp Hu)
      as (H1 & Hd & H2 & H3).
    pose proof (close_drops_file_io w1 Hc) as H4.
    fold w' in Hd, H2, H3, H4.
    assert (Hpc : disk w' !! p = Some c) by now rewrite Hd.
    split; [exact H1|]. split; [exact Hpc|]. split; [exact H2|].
    split; [exact H3|]. split; [exact H4|].
    intros b n Hw w2.
    destruct (write_makes_new_mirror w' b n H4 Hw) as (Hfree & Htp' & Hdom').
    fold w2 in Htp', Hdom'.
    exists (fresh (dom (disk w'))).
    split; [intros E; rewrite E, Hpc in Hfree; discriminate Hfree|].
    split; [exact Hfree|]. split; [exact Htp'|].
    split; apply elem_of_dom; rewrite Hdom'.
    + apply elem_of_union_l, elem_of_singleton. reflexivity.
    + apply elem_of_union_r, elem_of_dom. rewrite Hpc. eauto.
Qed.

End MirrorSessions.

(** A session that reads three bytes from the remote object, writes, seeks
    back and reads everything: one ranged read in all, made before the
    write. *)
Lemma mirror_serves_session_witness :
  let w := snd ((open "r+" ;;; read (Some 3)) (fresh_world (existing hello))) in
  let w1 := snd (write hello w) in
  calls (run [OpSeek (PyInt 0) 0; OpRead None] w1) = calls w1
  /\ calls w1 = [CallExists; CallGetSize; CallReadBytes 0 2;
                 CallExists; CallDownload].
Proof.
  intros w w1.
  pose proof (mirror_serves_session w hello 12
                [OpSeek (PyInt 0) 0; OpRead None] eq_refl) as (_ & H & _).
  split; [exact H | reflexivity].
Defined.

(** A session that writes twice and is closed with the upload going
    through: the mirror file is gone. *)
Lemma close_removes_mirror_witness :
  let w := snd ((open "w" ;;; write hello) (fresh_world missing)) in
  let ops := [OpSeek (PyInt 0) 0; OpWrite hello] in
  temp_path (self w) = Some 1%positive
  /\ disk (run ops w) !! 1%positive = Some hello
  /\ disk (snd (close (run ops w))) !! 1%positive = None
  /\ cloud (snd (close (run ops w))) = existing hello.
Proof.
  intros w ops.
  pose proof (close_removes_mirror w
                {| FileIO.name := 1; FileIO.readable := false;
                   FileIO.writable := true; FileIO.appending := false;
                   FileIO.pos := 12; FileIO.closed := false |}
                1%positive ops eq_refl eq_refl eq_refl)
    as (_ & H & _).
  destruct (H eq_refl) as (Hgone & _).
  split; [reflexivity|]. split; [reflexivity|].
  split; [exact Hgone | reflexivity].
Defined.

(** C1 as stated fails when the upload fails: [close] raises the client's
    error and the mirror file is still on the disk, with its content.  The
    handle is still open, and the next write of the session makes a second
    temporary file: both are on the disk. *)
Lemma close_keeps_mirror_when_upload_fails :
  let w := snd ((open "w" ;;; write hello) (fresh_world (failing []))) in
  let w' := snd (close w) in
  let w2 := snd (write hello w') in
  temp_path (self w) = Some 1%positive
  /\ fst (close w) = Raise (ClientError 0)
  /\ disk w' !! 1%positive = Some hello
  /\ _closed (base (self w')) = false
  /\ fst (write hello w') = Ok 12
  /\ temp_path (self w2) = Some 2%positive
  /\ disk w2 !! 1%positive = Some hello
  /\ disk w2 !! 2%positive = Some hello.
Proof. repeat split. Qed.

(** C7 as stated fails after a [close] that raised: the handle is still
    open, the bytes written are in the mirror file, and the read that
    follows is a ranged read of the object as the store has it. *)
Lemma read_after_failed_close_is_remote :
  let written := list_byte_of_string "HELLO" in
  let w := snd ((open "r+" ;;; write written)
                  (fresh_world (failing hello))) in
  let w' := snd (seek (PyInt 0) 0 (snd (close w))) in
  disk w !! 1%positive = Some (list_byte_of_string "HELLO world!")
  /\ fst (close w) = Raise (ClientError 0)
  /\ _closed (base (self w')) = false
  /\ fst (read (Some 5) w') = Ok (list_byte_of_string "hello")
  /\ calls (snd (read (Some 5) w'))
     = calls w ++ [CallUpload (list_byte_of_string "HELLO world!");
                   CallExists; CallGetSize; CallReadBytes 0 4].
Proof. repeat split. Qed.

(** ** Where the code departs from its own contract *)

(** [StorageIOBase.read] and [StorageIOBase.write] make the capability
    check before anything else. *)
Lemma base_read_checks (h : StorageIOBase) (sz : option Z) :
  readable h = false ->
  StorageIOBase_read sz h = (Raise UnsupportedOperation, h).
Proof.
  intros H. unfold StorageIOBase_read, _check_readable. unfold_monad.
  now rewrite H.
Qed.

Lemma base_write_checks (h : StorageIOBase) (b : bytes) :
  writable h = false ->
  StorageIOBase_write b h = (Raise UnsupportedOperation, h).
Proof.
  intros H. unfold StorageIOBase_write, _check_writable. unfold_monad.
  now rewrite H.
Qed.

(** A handle opened with "w" and read at once: the mirror's own file object
    refuses the read. *)
Lemma read_after_open_for_write :
  fst ((open "w" ;;; read (Some 5)) (fresh_world (existing hello)))
  = Raise UnsupportedOperation.
Proof. reflexivity. Qed.

(** C5 at its failing inputs.  [CloudStorageIO.read] and
    [CloudStorageIO.write] do not make the capability check.  A handle
    opened with "a" is not readable, yet after [seek(0)] a [read(5)] returns
    five bytes of the remote object and moves the offset.  A handle opened
    with "r" is not writable; [write] raises UnsupportedOperation only after
    it has created the mirror file. *)
Theorem capability_check_missing :
  (let w := snd ((open "a" ;;; seek (PyInt 0) 0)
                   (fresh_world (existing hello))) in
   readable (base (self w)) = false
   /\ fst (read (Some 5) w) = Ok (list_byte_of_string "hello")
   /\ _offset (self w) = 0
   /\ _offset (self (snd (read (Some 5) w))) = 5)
  /\ (let w := snd (open "r" (fresh_world (existing hello))) in
      writable (base (self w)) = false
      /\ temp_path (self w) = None
      /\ fst (write hello w) = Raise UnsupportedOperation
      /\ temp_path (self (snd (write hello w))) = Some 1%positive
      /\ disk (snd (write hello w)) !! 1%positive = Some []).
Proof. repeat split. Qed.

(** C4 at its failing input.  A handle is closed before its first [open],
    and [close] marks a mirrored handle closed; but a session that only read
    from the remote object has no mirror, and [close] returns with the
    handle still marked open. *)
Theorem close_leaves_read_session_open :
  _closed (base CloudStorageIO_init) = true
  /\ (let w := snd ((open "r" ;;; read (Some 3))
                      (fresh_world (existing hello))) in
      temp_path (self w) = None
      /\ fst (close w) = Ok tt
      /\ _closed (base (self (snd (close w)))) = false).
Proof. repeat split. Qed.

(** C9 at its failing input.  With a mirror of 12 bytes, [size] does not
    return 12: [os.fstat] is handed the method [fileno] itself, and raises
    TypeError.  Without a mirror, [size] is the client's answer. *)
Theorem size_of_mirrored_handle_raises :
  (let w := snd ((open "w" ;;; write hello) (fresh_world missing)) in
   option_map FileIO.name (__file_io (self w)) = Some 1%positive
   /\ option_map len (disk w !! 1%positive) = Some 12
   /\ fst (size w) = Raise TypeError)
  /\ fst (size (fresh_world (existing hello))) = Ok 12.
Proof. repeat split. Qed.


(** ** Names and URIs: what the string functions keep *)

Lemma chars_app (s t : string) : chars (s ++ t) = chars s ++ chars t.
Proof.
  unfold chars. induction s as [|c s IH]; simpl; [reflexivity|].
  now rewrite IH.
Qed.

Lemma chars_of_list (l : list ascii) : chars (string_of_list_ascii l) = l.
Proof. apply list_ascii_of_string_of_list_ascii. Qed.

Lemma string_of_chars_app (a b : list ascii) :
  string_of_list_ascii (a ++ b)
  = (string_of_list_ascii a ++ string_of_list_ascii b)%string.
Proof.
  induction a as [|c a IH]; simpl; [reflexivity|]. now rewrite IH.
Qed.

Lemma os_path_basename_no_sep (p : list ascii) :
  existsb (Ascii.eqb "/") (os_path_basename p) = false.
Proof.
  induction p as [|c p IH]; simpl; [reflexivity|].
  destruct (existsb (Ascii.eqb "/") p) eqn:E; [exact IH|].
  destruct (Ascii.eqb c "/") eqn:Ec; [exact E|].
  cbn [existsb]. rewrite E. rewrite Ascii.eqb_sym, Ec. reflexivity.
Qed.

Lemma lstrip_snoc (c : ascii) (l : list ascii) :
  lstrip c (l ++ [c])
  = match lstrip c l with [] => [] | _ :: _ => lstrip c l ++ [c] end.
Proof.
  induction l as [|d l IH]; simpl.
  - now rewrite Ascii.eqb_refl.
  - destruct (Ascii.eqb d c); [exact IH | reflexivity].
Qed.

Lemma strip_snoc (c : ascii) (l : list ascii) :
  strip c (l ++ [c]) = strip c l.
Proof.
  unfold strip. rewrite lstrip_snoc.
  destruct (lstrip c l) as [|d l'] eqn:E; [reflexivity|].
  rewrite rev_app_distr. simpl. now rewrite Ascii.eqb_refl.
Qed.

Lemma strip_cons (c : ascii) (l : list ascii) : strip c (c :: l) = strip c l.
Proof. unfold strip. simpl. now rewrite Ascii.eqb_refl. Qed.

Lemma basename_snoc_slash (path : string) :
  basename (path ++ "/") = basename path.
Proof.
  unfold basename. rewrite chars_app.
  change (chars "/") with ["/"%char]. now rewrite strip_snoc.
Qed.

(** X1: the basename never holds a path separator, and slashes at either end
    of the path do not change it: a folder's name is the same with and
    without its closing slash. *)
Theorem basename_ignores_outer_slashes (path : string) :
  char_in "/" (basename path) = false
  /\ basename (path ++ "/") = basename path
  /\ basename (String "/" path) = basename path.
Proof.
  split; [|split].
  - unfold char_in, basename. rewrite chars_of_list.
    apply os_path_basename_no_sep.
  - apply basename_snoc_slash.
  - unfold basename. change (chars (String "/" path)) with ("/"%char :: chars path).
    now rewrite strip_cons.
Qed.

Lemma split_first_spec (c : ascii) (l : list ascii) :
  match split_first c l with
  | Some (before, after) =>
      l = before ++ c :: after /\ existsb (Ascii.eqb c) before = false
  | None => existsb (Ascii.eqb c) l = false
  end.
Proof.
  induction l as [|d l IH]; simpl; [reflexivity|].
  destruct (Ascii.eqb d c) eqn:E.
  - apply Ascii.eqb_eq in E. subst. auto.
  - destruct (split_first c l) as [[before after]|].
    + destruct IH as [-> Hb]. split; [reflexivity|].
      cbn [existsb]. now rewrite Ascii.eqb_sym, E.
    + cbn [existsb]. now rewrite Ascii.eqb_sym, E.
Qed.

(** X2: when the caller names no suffix, the temporary file's suffix is the
    part of the basename from its first dot on: the basename is a dot-free
    stem followed by the suffix.  A basename without a dot gives no
    suffix. *)
Theorem temp_suffix_from_first_dot (path : string) :
  match temp_suffix None path with
  | Some suffix =>
      exists stem ext,
        suffix = String "." ext
        /\ basename path = (stem ++ suffix)%string
        /\ char_in "." stem = false
  | None => char_in "." (basename path) = false
  end.
Proof.
  unfold temp_suffix.
  pose proof (split_first_spec "." (chars (basename path))) as H.
  destruct (split_first "." (chars (basename path))) as [[before after]|].
  - destruct H as [Hsplit Hb].
    exists (string_of_list_ascii before), (string_of_list_ascii after).
    split; [reflexivity|]. split.
    + rewrite <- (string_of_list_ascii_of_string (basename path)).
      fold (chars (basename path)). rewrite Hsplit.
      now rewrite string_of_chars_app.
    + unfold char_in. now rewrite chars_of_list.
  - exact H.
Qed.

Lemma folder_uri_ends_with_slash (uri : string) :
  uri <> EmptyString -> last (chars (folder_uri uri)) = Some "/"%char.
Proof.
  intros Hne. unfold folder_uri.
  destruct (last (chars uri)) as [c|] eqn:E.
  - destruct (Ascii.eqb c "/") eqn:Ec.
    + apply Ascii.eqb_eq in Ec. now subst.
    + rewrite chars_app. apply last_snoc.
  - apply last_None in E. destruct uri; [contradiction | discriminate].
Qed.

(** X3: the URI [StorageFolderBase.__init__] hands on ends with a slash
    unless it is empty; it is the URI as given, with at most one slash added
    at its end; a URI that ends with a slash, and the empty one, are handed
    on as they are, so normalising twice changes nothing. *)
Theorem folder_uri_normal (uri : string) :
  (uri <> EmptyString -> last (chars (folder_uri uri)) = Some "/"%char)
  /\ folder_uri (folder_uri uri) = folder_uri uri
  /\ folder_uri EmptyString = EmptyString
  /\ (folder_uri uri = uri \/ folder_uri uri = (uri ++ "/")%string)
  /\ (last (chars uri) = Some "/"%char -> folder_uri uri = uri).
Proof.
  split; [apply folder_uri_ends_with_slash|]. split; [|split; [|split]].
  - destruct uri as [|c u]; [reflexivity|].
    pose proof (folder_uri_ends_with_slash (String c u)) as H.
    specialize (H ltac:(discriminate)).
    unfold folder_uri at 1. now rewrite H.
  - reflexivity.
  - unfold folder_uri. destruct (last (chars uri)) as [c|]; [|now left].
    destruct (Ascii.eqb c "/"); [now left | now right].
  - intros H. unfold folder_uri. now rewrite H.
Qed.

(** ** Re-opening: when the mode is parsed again *)

#[local] Instance code_le_trans : Transitive code_le.
Proof. unfold code_le. intros a b c. lia. Qed.

#[local] Instance code_le_antisymm : AntiSymm (=) code_le.
Proof.
  unfold code_le. intros a b H1 H2.
  rewrite <- (ascii_N_embedding a), <- (ascii_N_embedding b).
  f_equal. lia.
Qed.

Lemma insert_sorted_perm (c : ascii) (l : list ascii) :
  insert_sorted c l ≡ₚ c :: l.
Proof.
  induction l as [|d l IH]; simpl; [reflexivity|].
  destruct (N_of_ascii c <=? N_of_ascii d)%N; [reflexivity|].
  rewrite IH. apply perm_swap.
Qed.

Lemma sorted_perm (s : string) : sorted s ≡ₚ chars s.
Proof.
  unfold sorted. induction (chars s) as [|c l IH]; simpl; [reflexivity|].
  now rewrite insert_sorted_perm, IH.
Qed.

Lemma insert_sorted_Sorted (c : ascii) (l : list ascii) :
  Sorted code_le l -> Sorted code_le (insert_sorted c l).
Proof.
  induction l as [|d l IH]; intros Hs; simpl.
  - repeat constructor.
  - destruct (N_of_ascii c <=? N_of_ascii d)%N eqn:E.
    + apply N.leb_le in E. constructor; [exact Hs|]. now constructor.
    + apply N.leb_gt in E. inversion Hs as [|? ? Hl Hd]; subst.
      constructor; [now apply IH|].
      destruct l as [|d' l']; simpl.
      * constructor. unfold code_le. lia.
      * destruct (N_of_ascii c <=? N_of_ascii d')%N.
        -- constructor. unfold code_le. lia.
        -- inversion Hd; subst. now constructor.
Qed.

Lemma sorted_Sorted (s : string) : Sorted code_le (sorted s).
Proof.
  unfold sorted. induction (chars s) as [|c l IH]; simpl.
  - constructor.
  - now apply insert_sorted_Sorted.
Qed.

Lemma sorted_eq_iff_perm (m mode : string) :
  sorted m = sorted mode <-> chars m ≡ₚ chars mode.
Proof.
  split.
  - intros H. now rewrite <- (sorted_perm m), H, sorted_perm.
  - intros H. apply (Sorted_unique code_le); try apply sorted_Sorted.
    now rewrite !sorted_perm.
Qed.

(** X4: [open] skips the parse exactly when the handle already has a
    non-empty mode and the mode asked for is empty or a rearrangement of its
    characters ("br" after "rb").  Then only the closed flag changes and the
    mode keeps its old spelling; otherwise the mode is parsed afresh. *)
Theorem open_reparses_unless_rearranged (mode : string) (h : StorageIOBase) :
  (_is_same_mode mode h = true <->
   exists m, _mode h = Some m /\ m <> EmptyString
             /\ (mode = EmptyString \/ chars m ≡ₚ chars mode))
  /\ (_is_same_mode mode h = true ->
      StorageIOBase_open mode h = (Ok tt, set_closed false h))
  /\ (_is_same_mode mode h = false ->
      StorageIOBase_open mode h
      = (_set_mode mode ;;; modify (set_closed false)) h).
Proof.
  split; [|split].
  - unfold _is_same_mode. destruct (_mode h) as [[|a m']|].
    + split; [discriminate|]. intros (m & E & Hne & _).
      inversion E; subst. now destruct Hne.
    + destruct (String.eqb mode EmptyString) eqn:He.
      * apply String.eqb_eq in He. split; [|reflexivity].
        intros _. exists (String a m'). repeat split; [discriminate | auto].
      * apply String.eqb_neq in He.
        rewrite bool_decide_eq_true, sorted_eq_iff_perm. split.
        -- intros H. exists (String a m'). repeat split; [discriminate | auto].
        -- intros (m & E & _ & [Hm|Hm]); [contradiction|].
           inversion E; subst. exact Hm.
    + split; [discriminate|]. intros (m & E & _). discriminate E.
  - intros H. unfold StorageIOBase_open. unfold_monad. now rewrite H.
  - intros H. unfold StorageIOBase_open. unfold_monad. now rewrite H.
Qed.

(** X5: [_set_mode] stores the mode before it checks it.  So a mode the
    grammar rejects raises ValueError at the first [open] and changes no
    flag, but the same mode asked for again is taken for the current one:
    the second [open] returns, and the handle is open with the flags it
    had. *)
Theorem rejected_mode_passes_on_retry (mode : string) (h : StorageIOBase) :
  ~ valid_mode mode -> mode <> EmptyString -> _is_same_mode mode h = false ->
  let h1 := snd (StorageIOBase_open mode h) in
  let h2 := snd (StorageIOBase_open mode h1) in
  fst (StorageIOBase_open mode h) = Raise ValueError
  /\ _closed h1 = _closed h
  /\ fst (StorageIOBase_open mode h1) = Ok tt
  /\ _closed h2 = false
  /\ (_created h2, _readable h2, _writable h2, _appending h2)
     = (_created h, _readable h, _writable h, _appending h).
Proof.
  intros Hv Hne Hsame. cbv zeta.
  assert (H1 : StorageIOBase_open mode h
               = (Raise ValueError, set_mode_attr (Some mode) h)).
  { unfold StorageIOBase_open.
    rewrite (bind_ok get _ h h h eq_refl), Hsame.
    now rewrite (bind_raise _ _ _ _ _ (set_mode_invalid mode h Hv)). }
  assert (Hs : _is_same_mode mode (set_mode_attr (Some mode) h) = true).
  { unfold _is_same_mode. simpl. destruct mode as [|a m]; [contradiction|].
    simpl. now apply bool_decide_eq_true. }
  assert (H2 : StorageIOBase_open mode (set_mode_attr (Some mode) h)
               = (Ok tt, set_closed false (set_mode_attr (Some mode) h))).
  { unfold StorageIOBase_open. unfold_monad. now rewrite Hs. }
  rewrite H1. cbn [fst snd]. rewrite H2. simpl. auto.
Qed.

Lemma rejected_mode_passes_on_retry_witness :
  fst (StorageIOBase_open "rw" StorageIOBase_init) = Raise ValueError
  /\ fst (StorageIOBase_open "rw"
            (snd (StorageIOBase_open "rw" StorageIOBase_init))) = Ok tt.
Proof.
  assert (Hv : ~ valid_mode "rw").
  { rewrite valid_mode_checks. intros (_ & H & _). discriminate H. }
  pose proof (rejected_mode_passes_on_retry "rw" StorageIOBase_init Hv
                ltac:(discriminate) eq_refl) as (H1 & _ & H2 & _).
  split; [exact H1 | exact H2].
Defined.


(** ** What every operation keeps *)

Section Respects.

Context {R : Type} `{Client : CloudClient R}.
Context (Rel : world R -> world R -> Prop).
Context `{!Reflexive Rel, !Transitive Rel}.

Lemma respects_ret {A} (a : A) : respects Rel (ret a).
Proof. intros w. reflexivity. Qed.

Lemma respects_raise {A} (e : exn) : respects Rel (@raise _ A e).
Proof. intros w. reflexivity. Qed.

Lemma respects_get : respects Rel get.
Proof. intros w. reflexivity. Qed.

Lemma respects_bind {A B} (m : M (world R) A) (k : A -> M (world R) B) :
  respects Rel m -> (forall a, respects Rel (k a)) -> respects Rel (bind m k).
Proof.
  intros Hm Hk w. specialize (Hm w). unfold bind.
  destruct (m w) as [[a|e] w1]; simpl in *; [|exact Hm].
  etransitivity; [exact Hm | apply Hk].
Qed.

(** The body of a [with] statement and the [close] of its [__exit__]. *)
Lemma respects_with_open {A} (mode : string) (body : M (world R) A) :
  respects Rel (open mode) -> respects Rel body -> respects Rel close ->
  respects Rel (with_open mode body).
Proof.
  intros Ho Hb Hc. unfold with_open. apply respects_bind; [exact Ho|].
  intros _ w. specialize (Hb w).
  destruct (body w) as [[v|e] w1]; cbn in *.
  - etransitivity; [exact Hb|].
    apply (respects_bind close); [exact Hc | intros ?; apply respects_ret].
  - etransitivity; [exact Hb|].
    apply (respects_bind close); [exact Hc | intros ?; apply respects_raise].
Qed.

End Respects.

#[local] Instance flags_rel_refl {R} : Reflexive (@flags_rel R).
Proof. intros w. unfold flags_rel, flags_kept. auto. Qed.

#[local] Instance flags_rel_trans {R} : Transitive (@flags_rel R).
Proof. intros w1 w2 w3. unfold flags_rel, flags_kept. intuition. Qed.

#[local] Instance ok_rel_refl {R} : Reflexive (@ok_rel R).
Proof. intros w. unfold ok_rel. auto. Qed.

#[local] Instance ok_rel_trans {R} : Transitive (@ok_rel R).
Proof. intros w1 w2 w3. unfold ok_rel. auto. Qed.

Create HintDb respects.

Ltac respects_go :=
  repeat first
    [ solve [apply respects_ret; typeclasses eauto]
    | solve [apply respects_raise; typeclasses eauto]
    | solve [apply respects_get; typeclasses eauto]
    | solve [eauto with respects]
    | apply respects_bind; [typeclasses eauto | | intros ?]
    | match goal with
      | |- respects _ (match ?x with _ => _ end) => destruct x eqn:?
      | |- respects _ (if ?x then _ else _) => destruct x eqn:?
      end ].

(** The flags a mode sets come on top of those the handle has. *)
Lemma base_open_keeps_flags (mode : string) (h : StorageIOBase) :
  flags_kept h (snd (StorageIOBase_open mode h)).
Proof.
  unfold StorageIOBase_open, _set_mode, apply_mode. unfold_monad.
  destruct h as [c m cr r wr a]. unfold flags_kept. cbn.
  repeat (case_match; cbn in *; simplify_eq); auto.
Qed.

Section Flags.

Context {R : Type} `{Client : CloudClient R}.

Lemma flags_same_base {A} (m : M (world R) A) :
  (forall w, base (self (snd (m w))) = base (self w)) ->
  respects flags_rel m.
Proof.
  intros H w. unfold flags_rel. rewrite H. unfold flags_kept. auto.
Qed.

Lemma flags_exists : respects (R := R) flags_rel exists_.
Proof. now apply flags_same_base. Qed.

Lemma flags_get_size : respects (R := R) flags_rel call_get_size.
Proof. now apply flags_same_base. Qed.

Lemma flags_fstat (g : world R -> outcome Z) :
  respects (R := R) flags_rel (fun w => (g w, w)).
Proof. now apply flags_same_base. Qed.

Lemma flags_read_bytes start stop :
  respects (R := R) flags_rel (call_read_bytes start stop).
Proof. now apply flags_same_base. Qed.

Lemma flags_create_temp_file : respects (R := R) flags_rel create_temp_file.
Proof. now apply flags_same_base. Qed.

Lemma flags_download p : respects (R := R) flags_rel (call_download p).
Proof.
  apply flags_same_base. intros w. unfold call_download.
  now destruct (download (cloud w)).
Qed.

Lemma flags_upload data : respects (R := R) flags_rel (call_upload data).
Proof.
  apply flags_same_base. intros w. unfold call_upload.
  now destruct (upload data (cloud w)).
Qed.

Lemma flags_fileio_open p m :
  respects (R := R) flags_rel
    (fun w => let '(r, d') := FileIO.open p m (disk w) in (r, with_disk d' w)).
Proof.
  apply flags_same_base. intros w. now destruct (FileIO.open p m (disk w)).
Qed.

Lemma flags_on_file_io {A}
    (op : FileIO.t -> gmap positive bytes ->
          outcome A * FileIO.t * gmap positive bytes) :
  respects (R := R) flags_rel (on_file_io op).
Proof.
  apply flags_same_base. intros w. unfold on_file_io.
  destruct (__file_io (self w)) as [f|]; [|reflexivity].
  now destruct (op f (disk w)) as [[r f'] d'].
Qed.

Lemma flags_set_self (f : CloudStorageIO -> CloudStorageIO) :
  (forall h, base (f h) = base h) ->
  respects (R := R) flags_rel (modify (with_self f)).
Proof. intros H. apply flags_same_base. intros w. apply H. Qed.

Lemma flags_modify_disk (f : world R -> gmap positive bytes) :
  respects (R := R) flags_rel (modify (fun w => with_disk (f w) w)).
Proof. now apply flags_same_base. Qed.

Lemma flags_set_closed v :
  respects (R := R) flags_rel
    (modify (with_self (fun h => set_base (set_closed v (base h)) h))).
Proof. intros w. unfold flags_rel, flags_kept. cbn. auto. Qed.

Lemma flags_inherited_open mode :
  respects (R := R) flags_rel (inherited (StorageIOBase_open mode)).
Proof.
  intros w. unfold flags_rel, inherited.
  pose proof (base_open_keeps_flags mode (base (self w))) as H.
  destruct (StorageIOBase_open mode (base (self w))) as [r b]. exact H.
Qed.

Hint Resolve flags_exists flags_get_size flags_fstat flags_read_bytes
  flags_create_temp_file flags_download flags_upload flags_fileio_open
  flags_on_file_io flags_modify_disk flags_set_closed
  flags_inherited_open : respects.
Hint Extern 1 (respects flags_rel (modify (with_self _))) =>
  (apply flags_set_self; reflexivity) : respects.
Hint Extern 5 (respects flags_rel (fun _ => _)) =>
  (apply flags_same_base; intros ?; reflexivity) : respects.
Hint Extern 1 (respects flags_rel (file_io_tell)) =>
  (apply flags_on_file_io) : respects.
Hint Extern 1 (respects flags_rel (file_io_seek _ _)) =>
  (apply flags_on_file_io) : respects.
Hint Extern 1 (respects flags_rel (file_io_read _)) =>
  (apply flags_on_file_io) : respects.
Hint Extern 1 (respects flags_rel (file_io_write _)) =>
  (apply flags_on_file_io) : respects.

Lemma flags_size : respects (R := R) flags_rel size.
Proof. unfold size. respects_go. Qed.

Lemma flags_tell : respects (R := R) flags_rel tell.
Proof. unfold tell. respects_go. Qed.

Lemma flags_mode_str : respects (R := R) flags_rel mode_str.
Proof. unfold mode_str. respects_go. Qed.

Lemma flags_add_offset n : respects (R := R) flags_rel (add_offset n).
Proof. unfold add_offset. respects_go. Qed.

Hint Resolve flags_size flags_tell flags_mode_str flags_add_offset : respects.

Lemma flags_seek pos whence : respects (R := R) flags_rel (seek pos whence).
Proof.
  unfold seek, _seek. respects_go.
Qed.

Lemma flags_local : respects (R := R) flags_rel local.
Proof.
  unfold local. respects_go.
Qed.

Lemma flags_close : respects (R := R) flags_rel close.
Proof.
  unfold close, open_rb, __rm_temp. respects_go.
Qed.

Hint Resolve flags_seek flags_local flags_close : respects.

Lemma flags_read sz : respects (R := R) flags_rel (read sz).
Proof. unfold read. respects_go. Qed.

Lemma flags_write b : respects (R := R) flags_rel (write b).
Proof. unfold write. respects_go. Qed.

Lemma flags_open mode : respects (R := R) flags_rel (open mode).
Proof. unfold open. respects_go. Qed.

Hint Resolve flags_read flags_write flags_open : respects.

Lemma flags_copy_loop src : forall n,
  respects (R := R) flags_rel (copy_loop src n).
Proof.
  induction src as [|b rest IH]; intros n; simpl; [respects_go|].
  destruct b; respects_go.
Qed.

Hint Resolve flags_copy_loop : respects.

Lemma flags_copy_stream src : respects (R := R) flags_rel (copy_stream src).
Proof. unfold copy_stream, flush. respects_go. Qed.

Lemma flags_load_from src : respects (R := R) flags_rel (load_from src).
Proof.
  unfold load_from.
  apply respects_bind;
    [typeclasses eauto | apply respects_get; typeclasses eauto |].
  intros w0. destruct (_closed (base (self w0))).
  - apply respects_with_open; try typeclasses eauto.
    + apply flags_open.
    + apply flags_copy_stream.
    + apply flags_close.
  - apply flags_copy_stream.
Qed.

Lemma flags_readinto buf : respects (R := R) flags_rel (readinto buf).
Proof. unfold readinto. respects_go. Qed.

Lemma flags_act a : forall w : world R, flags_rel w (act a w).
Proof.
  destruct a as [[]| | | |]; cbn.
  - apply flags_read.
  - apply flags_write.
  - apply flags_seek.
  - apply flags_tell.
  - apply flags_size.
  - apply flags_local.
  - apply flags_open.
  - apply flags_close.
  - apply flags_load_from.
  - apply flags_readinto.
Qed.

(** X6: a capability flag once set is never cleared: whatever is done with
    the handle (reads, writes, seeks, opening it again in any mode, closing
    it, loading it from a stream), the created, readable, writable and
    appending flags that were true stay true.  A handle opened for reading
    and then for writing is still readable. *)
Theorem capabilities_are_never_revoked (w : world R) (acts : list action) :
  flags_kept (base (self w)) (base (self (run_actions acts w))).
Proof.
  revert w. induction acts as [|a acts IH]; intros w; simpl.
  - apply (flags_rel_refl w).
  - apply (flags_rel_trans w (act a w)); [apply flags_act | apply IH].
Qed.

End Flags.


Section Consistency.

Context {R : Type} `{Client : CloudClient R}.

(** A step that changes neither the handle nor the disk. *)
Lemma ok_same {A} (m : M (world R) A) :
  (forall w, self (snd (m w)) = self w /\ disk (snd (m w)) = disk w) ->
  respects ok_rel m.
Proof.
  intros H w [Hoff Hm]. destruct (H w) as [Hs Hd].
  unfold handle_ok, mirror_consistent. rewrite Hs, Hd. auto.
Qed.

Lemma ok_exists : respects (R := R) ok_rel exists_.
Proof. now apply ok_same. Qed.

Lemma ok_get_size : respects (R := R) ok_rel call_get_size.
Proof. now apply ok_same. Qed.

Lemma ok_read_bytes start stop :
  respects (R := R) ok_rel (call_read_bytes start stop).
Proof. now apply ok_same. Qed.

Lemma ok_mode_str : respects (R := R) ok_rel mode_str.
Proof.
  apply ok_same. intros w. unfold mode_str. unfold_monad.
  now destruct (_mode (base (self w))).
Qed.

(** A step that changes the flags and the mode only. *)
Lemma ok_set_base (f : CloudStorageIO -> StorageIOBase) :
  respects (R := R) ok_rel (modify (with_self (fun h => set_base (f h) h))).
Proof. intros w [Hoff Hm]. split; [exact Hoff | exact Hm]. Qed.

Lemma ok_inherited {A} (m : M StorageIOBase A) :
  respects (R := R) ok_rel (inherited m).
Proof.
  intros w [Hoff Hm]. unfold inherited.
  destruct (m (base (self w))) as [r b]. split; [exact Hoff | exact Hm].
Qed.

Lemma ok_set_offset (f : CloudStorageIO -> Z) :
  (forall h, 0 <= _offset h -> 0 <= f h) ->
  respects (R := R) ok_rel
    (modify (with_self (fun h => set_offset (f h) h))).
Proof.
  intros H w [Hoff Hm]. split; [now apply H | exact Hm].
Qed.

Lemma ok_add_offset (n : Z) :
  0 <= n -> respects (R := R) ok_rel (add_offset n).
Proof.
  intros Hn. unfold add_offset. apply ok_set_offset. intros h. lia.
Qed.

(** A method of the mirror's file object that keeps its name, leaves it
    open and at a position that is not negative, and removes no file. *)
Lemma ok_on_file_io {A}
    (op : FileIO.t -> gmap positive bytes ->
          outcome A * FileIO.t * gmap positive bytes) :
  (forall f d, 0 <= FileIO.pos f -> FileIO.closed f = false ->
     is_Some (d !! FileIO.name f) ->
     let '(_, f', d') := op f d in
     FileIO.name f' = FileIO.name f /\ FileIO.closed f' = false
     /\ 0 <= FileIO.pos f' /\ is_Some (d' !! FileIO.name f)) ->
  respects (R := R) ok_rel (on_file_io op).
Proof.
  intros Hop w [Hoff Hm]. unfold on_file_io.
  destruct (__file_io (self w)) as [f|] eqn:Hf; [|now split].
  destruct (Hm f Hf) as (Hpos & Hcl & Htp & Hd).
  specialize (Hop f (disk w) Hpos Hcl Hd).
  destruct (op f (disk w)) as [[r f'] d'].
  destruct Hop as (Hn & Hc' & Hp' & Hd').
  split; [exact Hoff|].
  intros f0 Hf0. cbn in Hf0. inversion Hf0; subst f0. cbn.
  rewrite Hn. auto.
Qed.

Lemma ok_file_io_tell : respects (R := R) ok_rel file_io_tell.
Proof. apply ok_on_file_io. intros f d Hp Hc Hd. auto. Qed.

Lemma fileio_seek_ok p whence f d :
  0 <= FileIO.pos f ->
  let '(r, f') := FileIO.seek p whence f d in
  FileIO.name f' = FileIO.name f /\ FileIO.closed f' = FileIO.closed f
  /\ 0 <= FileIO.pos f'
  /\ match r with Ok q => 0 <= q /\ FileIO.pos f' = q | Raise _ => True end.
Proof.
  intros Hp. unfold FileIO.seek.
  destruct p as [p| | |]; try (cbn; now auto).
  destruct (FileIO.closed f) eqn:Hc; [cbn; now auto|].
  destruct (d !! FileIO.name f); [|cbn; now auto].
  destruct (if whence =? 0 then Some p
            else if whence =? 1 then Some (FileIO.pos f + p)
            else if whence =? 2 then Some (len b + p) else None)
    as [q|]; [|cbn; now auto].
  destruct (q <? 0) eqn:Hq; [cbn; now auto|].
  apply Z.ltb_ge in Hq. cbn. auto.
Qed.

Lemma ok_file_io_seek p whence :
  respects (R := R) ok_rel (file_io_seek p whence).
Proof.
  apply ok_on_file_io. intros f d Hp Hc Hd.
  pose proof (fileio_seek_ok p whence f d Hp) as H.
  destruct (FileIO.seek p whence f d) as [r f'].
  destruct H as (Hn & Hc' & Hp' & _). rewrite Hc'. auto.
Qed.

Lemma ok_file_io_read sz : respects (R := R) ok_rel (file_io_read sz).
Proof.
  apply ok_on_file_io. intros f d Hp Hc Hd. unfold FileIO.read.
  rewrite Hc. destruct (FileIO.readable f); cbn; [|now auto].
  destruct (d !! FileIO.name f) as [c|] eqn:E; cbn; [|now auto].
  repeat split; try assumption. unfold len. lia.
Qed.

Lemma fileio_write_ok b f d :
  0 <= FileIO.pos f -> FileIO.closed f = false ->
  is_Some (d !! FileIO.name f) ->
  let '(r, f', d') := FileIO.write b f d in
  FileIO.name f' = FileIO.name f /\ FileIO.closed f' = false
  /\ 0 <= FileIO.pos f' /\ is_Some (d' !! FileIO.name f)
  /\ match r with Ok n => 0 <= n | Raise _ => True end.
Proof.
  intros Hp Hc Hd. unfold FileIO.write. rewrite Hc.
  destruct (FileIO.writable f); cbn; [|repeat split; auto].
  destruct (d !! FileIO.name f) as [c|] eqn:E; cbn;
    [|repeat split; auto; now rewrite E].
  destruct (FileIO.appending f); cbn;
    rewrite lookup_insert_eq; repeat split; eauto; unfold len; lia.
Qed.

Hint Resolve ok_exists ok_get_size ok_read_bytes ok_mode_str ok_set_base
  ok_inherited ok_file_io_tell ok_file_io_seek ok_file_io_read : respects.
Hint Extern 1 (respects ok_rel (add_offset (len _))) =>
  (apply ok_add_offset; unfold len; lia) : respects.
Hint Extern 1 (respects ok_rel (fun w => (_, w))) =>
  (apply ok_same; intros ?; split; reflexivity) : respects.

(** [tell], with the position it returns. *)
Lemma ok_tell_result (w : world R) :
  handle_ok w ->
  handle_ok (snd (tell w))
  /\ match fst (tell w) with Ok p => 0 <= p | Raise _ => True end.
Proof.
  intros [Hoff Hm]. unfold tell, file_io_tell, on_file_io. unfold_monad.
  destruct (__file_io (self w)) as [f|] eqn:Hf; cbn.
  - rewrite Hf. destruct (Hm f Hf) as (Hp & Hc & Htp & Hd).
    unfold FileIO.tell. rewrite Hc. cbn. split; [|exact Hp].
    split; [exact Hp|]. intros f0 Hf0. cbn in Hf0.
    inversion Hf0; subst f0. auto.
  - split; [now split | exact Hoff].
Qed.

Lemma ok_tell : respects (R := R) ok_rel tell.
Proof. intros w Hok. now apply ok_tell_result. Qed.

Lemma ok_size : respects (R := R) ok_rel size.
Proof. unfold size. respects_go. Qed.

Hint Resolve ok_tell ok_size : respects.

Lemma ok__seek pos whence : respects (R := R) ok_rel (_seek pos whence).
Proof.
  destruct pos as [n| | |]; try (apply respects_raise; typeclasses eauto).
  unfold _seek. apply respects_bind; [typeclasses eauto| |respects_go].
  destruct (whence =? 0).
  - destruct (n <? 0) eqn:E; [apply respects_raise; typeclasses eauto|].
    apply Z.ltb_ge in E. apply (ok_set_offset (fun _ => n)). auto.
  - destruct (whence =? 1).
    + apply (ok_set_offset (fun h => Z.max 0 (_offset h + n))). intros; lia.
    + destruct (whence =? 2); [|apply respects_raise; typeclasses eauto].
      apply respects_bind; [typeclasses eauto | apply ok_size |].
      intros sz. apply (ok_set_offset (fun _ => Z.max 0 (sz + n))).
      intros; lia.
Qed.

Lemma ok_seek pos whence : respects (R := R) ok_rel (seek pos whence).
Proof.
  intros w [Hoff Hm]. unfold seek. rewrite (bind_ok get _ w w w eq_refl).
  destruct (__file_io (self w)) as [f|] eqn:Hf;
    [|now apply ok__seek].
  destruct (Hm f Hf) as (Hp & Hc & Htp & Hd).
  unfold file_io_seek, on_file_io. unfold_monad. rewrite Hf.
  pose proof (fileio_seek_ok pos whence f (disk w) Hp) as H.
  destruct (FileIO.seek pos whence f (disk w)) as [[q|e] f'];
    destruct H as (Hn & Hc' & Hp' & Hq); cbn.
  - split; [cbn; apply Hq|]. intros f0 Hf0. cbn in Hf0.
    inversion Hf0; subst f0. cbn. rewrite Hn, Hc'. auto.
  - split; [exact Hoff|]. intros f0 Hf0. cbn in Hf0.
    inversion Hf0; subst f0. cbn. rewrite Hn, Hc'. auto.
Qed.

(** The end of [write]: the bytes go to the mirror, the offset moves on. *)
Lemma ok_write_tail b :
  respects (R := R) ok_rel (n <- file_io_write b ;; add_offset n ;;; ret n).
Proof.
  intros w [Hoff Hm]. unfold file_io_write, on_file_io, add_offset.
  unfold_monad.
  destruct (__file_io (self w)) as [f|] eqn:Hf; [|now split].
  destruct (Hm f Hf) as (Hp & Hc & Htp & Hd).
  pose proof (fileio_write_ok b f (disk w) Hp Hc Hd) as H.
  destruct (FileIO.write b f (disk w)) as [[[n|e] f'] d'];
    destruct H as (Hn & Hc' & Hp' & Hd' & Hr); cbn in *.
  - split; [cbn; lia|]. intros f0 Hf0. cbn in Hf0.
    inversion Hf0; subst f0. cbn. rewrite Hn. auto.
  - split; [exact Hoff|]. intros f0 Hf0. cbn in Hf0.
    inversion Hf0; subst f0. cbn. rewrite Hn. auto.
Qed.

Ltac ok_leaf Hoff Hm :=
  split;
  [ exact Hoff
  | let f0 := fresh "f0" in
    let Hf0 := fresh "Hf0" in
    intros f0 Hf0; cbn in Hf0; try discriminate Hf0;
    try (inversion Hf0; subst f0; cbn;
         rewrite ?lookup_insert_eq;
         repeat split; eauto; unfold len; lia) ].

Lemma ok_local : respects (R := R) ok_rel local.
Proof.
  intros [[bs o tp fio] d r cs] [Hoff Hm]. cbn in Hoff.
  destruct fio as [f|].
  - unfold local. unfold_monad. cbn. split; [exact Hoff | exact Hm].
  - clear Hm.
    unfold local, create_temp_file, exists_, mode_str, call_download.
    unfold FileIO.open. unfold_monad. cbn.
    repeat (case_match; cbn in *; simplify_eq; try discriminate).
    all: ok_leaf Hoff Hoff.
Qed.

Lemma ok_close : respects (R := R) ok_rel close.
Proof.
  intros [[bs o tp fio] d r cs] [Hoff Hm]. cbn in Hoff.
  unfold close, open_rb, call_upload, __rm_temp. unfold_monad. cbn.
  destruct (_closed bs); [now split|].
  destruct fio as [f|]; [destruct (FileIO.closed f)|]; cbn.
  all: repeat (case_match; cbn in *; simplify_eq; try discriminate).
  all: ok_leaf Hoff Hm.
Qed.

Hint Resolve ok_seek ok_write_tail ok_local ok_close : respects.
Hint Extern 1 (respects ok_rel (modify (with_self
                 (fun h => set_base _ h)))) =>
  (apply (ok_set_base (fun h => set_closed false (base h)))) : respects.

Lemma ok_read sz : respects (R := R) ok_rel (read sz).
Proof. unfold read. respects_go. Qed.

Lemma ok_write b : respects (R := R) ok_rel (write b).
Proof. unfold write. respects_go. Qed.

Lemma ok_open mode : respects (R := R) ok_rel (open mode).
Proof. unfold open. respects_go. Qed.

Hint Resolve ok_read ok_write ok_open : respects.

Lemma ok_copy_loop src : forall n,
  respects (R := R) ok_rel (copy_loop src n).
Proof.
  induction src as [|b rest IH]; intros n; simpl; [respects_go|].
  destruct b; respects_go.
Qed.

Hint Resolve ok_copy_loop : respects.

Lemma ok_copy_stream src : respects (R := R) ok_rel (copy_stream src).
Proof. unfold copy_stream, flush. respects_go. Qed.

Lemma ok_load_from src : respects (R := R) ok_rel (load_from src).
Proof.
  unfold load_from.
  apply respects_bind;
    [typeclasses eauto | apply respects_get; typeclasses eauto |].
  intros w0. destruct (_closed (base (self w0))).
  - apply respects_with_open; try typeclasses eauto.
    + apply ok_open.
    + apply ok_copy_stream.
    + apply ok_close.
  - apply ok_copy_stream.
Qed.

Lemma ok_readinto buf : respects (R := R) ok_rel (readinto buf).
Proof. unfold readinto. respects_go. Qed.

Lemma ok_act a : forall w : world R, ok_rel w (act a w).
Proof.
  destruct a as [[]| | | |]; cbn.
  - apply ok_read.
  - apply ok_write.
  - apply ok_seek.
  - apply ok_tell.
  - apply ok_size.
  - apply ok_local.
  - apply ok_open.
  - apply ok_close.
  - apply ok_load_from.
  - apply ok_readinto.
Qed.

Lemma run_actions_ok (acts : list action) : forall w : world R,
  handle_ok w -> handle_ok (run_actions acts w).
Proof.
  induction acts as [|a acts IH]; intros w Hok; simpl; [exact Hok|].
  apply IH. now apply ok_act.
Qed.

(** X7: the offset is never negative.  From a handle whose offset is not
    negative and whose mirror, if it has one, is in order, no sequence of
    reads, writes, seeks, tells, opens, closes and loads, returning or
    raising, leaves a negative offset. *)
Theorem offset_is_never_negative (w : world R) (acts : list action) :
  0 <= _offset (self w) -> mirror_consistent w ->
  0 <= _offset (self (run_actions acts w)).
Proof.
  intros Hoff Hm. now apply (run_actions_ok acts w (conj Hoff Hm)).
Qed.

(** X8: the handle and its mirror stay in step.  Whenever the handle holds a
    mirror file object, that object is open, [temp_path] names its file, and
    the file is on the disk; this holds after any sequence of operations,
    returning or raising, once it holds. *)
Theorem mirror_stays_consistent (w : world R) (acts : list action) :
  0 <= _offset (self w) -> mirror_consistent w ->
  forall f, __file_io (self (run_actions acts w)) = Some f ->
    FileIO.closed f = false
    /\ temp_path (self (run_actions acts w)) = Some (FileIO.name f)
    /\ is_Some (disk (run_actions acts w) !! FileIO.name f).
Proof.
  intros Hoff Hm f Hf.
  destruct (run_actions_ok acts w (conj Hoff Hm)) as [_ H].
  destruct (H f Hf) as (_ & Hc & Ht & Hd). auto.
Qed.

End Consistency.

Lemma fresh_world_consistent {R} (r : R) : mirror_consistent (fresh_world r).
Proof. intros f Hf. discriminate Hf. Qed.

Lemma offset_is_never_negative_witness :
  0 <= _offset (self (run_actions sample_actions
                        (fresh_world (existing hello)))).
Proof.
  apply (offset_is_never_negative (fresh_world (existing hello))
           sample_actions).
  - cbn. lia.
  - apply fresh_world_consistent.
Defined.

Lemma mirror_stays_consistent_witness :
  exists f,
    __file_io (self (run_actions [ActOpen "w"; Act (OpWrite hello)]
                       (fresh_world missing))) = Some f
    /\ FileIO.closed f = false
    /\ temp_path (self (run_actions [ActOpen "w"; Act (OpWrite hello)]
                          (fresh_world missing))) = Some (FileIO.name f)
    /\ is_Some (disk (run_actions [ActOpen "w"; Act (OpWrite hello)]
                        (fresh_world missing)) !! FileIO.name f).
Proof.
  eexists. split; [reflexivity|].
  apply (mirror_stays_consistent (fresh_world missing)
           [ActOpen "w"; Act (OpWrite hello)]).
  - cbn. lia.
  - apply fresh_world_consistent.
  - reflexivity.
Defined.

(** ** Closing twice *)

Section CloseTwice.

Context {R : Type} `{Client : CloudClient R}.

Lemma close_closed (w : world R) :
  _closed (base (self w)) = true -> close w = (Ok tt, w).
Proof. intros H. unfold close. unfold_monad. now rewrite H. Qed.

(** X9: [close] after a [close] that returned does nothing: it returns,
    calls the client for nothing, and leaves the handle, the disk and the
    store as they are.  There is no second upload. *)
Theorem close_twice (w : world R) :
  fst (close w) = Ok tt ->
  close (snd (close w)) = (Ok tt, snd (close w)).
Proof.
  intros Hok.
  destruct (_closed (base (self w))) eqn:Hc.
  - rewrite (close_closed w Hc). cbn. now apply close_closed.
  - destruct (temp_path (self w)) as [p|] eqn:Ht.
    + destruct (close_ok_removes w p Hc Ht Hok) as (_ & _ & _ & H).
      now apply close_closed.
    + apply close_without_mirror.
      * revert Hok. destruct w as [[bs o tp fio] d r cs]. cbn in *. subst tp.
        unfold close. unfold_monad. cbn. rewrite Hc.
        destruct fio as [f|]; [destruct (FileIO.closed f)|]; reflexivity.
      * revert Hok. destruct w as [[bs o tp fio] d r cs]. cbn in *. subst tp.
        unfold close. unfold_monad. cbn. rewrite Hc.
        destruct fio as [f|]; [destruct (FileIO.closed f)|]; reflexivity.
Qed.

End CloseTwice.

Lemma close_twice_witness :
  let w := snd ((open "w" ;;; write hello) (fresh_world missing)) in
  calls (snd (close w)) = [CallExists; CallUpload hello]
  /\ close (snd (close w)) = (Ok tt, snd (close w)).
Proof.
  intros w. split; [reflexivity|].
  apply (close_twice w). reflexivity.
Defined.


(** ** The mirror's file object, step by step *)

Section MirrorSteps.

Context {R : Type} `{Client : CloudClient R}.

Lemma tell_mirrored bs o tp f d (r : R) cs :
  FileIO.closed f = false ->
  tell (world_of bs o tp (Some f) d r cs)
  = (Ok (FileIO.pos f), world_of bs (FileIO.pos f) tp (Some f) d r cs).
Proof.
  intros Hc. unfold tell, file_io_tell, on_file_io, FileIO.tell, world_of.
  unfold_monad. simpl. rewrite Hc. reflexivity.
Qed.

Lemma seek_mirrored bs o tp f d (r : R) cs c p :
  FileIO.closed f = false -> d !! FileIO.name f = Some c -> 0 <= p ->
  seek (PyInt p) 0 (world_of bs o tp (Some f) d r cs)
  = (Ok p, world_of bs p tp (Some (FileIO.set_pos p f)) d r cs).
Proof.
  intros Hc Hd Hp.
  unfold seek, file_io_seek, on_file_io, FileIO.seek, world_of.
  unfold_monad. simpl. rewrite Hc, Hd. simpl.
  destruct (p <? 0) eqn:E; [apply Z.ltb_lt in E; lia | reflexivity].
Qed.

Lemma set_pos_same f : FileIO.set_pos (FileIO.pos f) f = f.
Proof. now destruct f. Qed.

Lemma read_mirrored bs o tp f d (r : R) cs c sz :
  FileIO.closed f = false -> FileIO.readable f = true ->
  0 <= FileIO.pos f -> d !! FileIO.name f = Some c ->
  let data := slice_from c (FileIO.pos f) sz in
  read sz (world_of bs o tp (Some f) d r cs)
  = (Ok data,
     world_of bs (FileIO.pos f + len data) tp
       (Some (FileIO.set_pos (FileIO.pos f + len data) f)) d r cs).
Proof.
  intros Hc Hr Hp Hd data. unfold read.
  rewrite (bind_ok _ _ _ _ _ (tell_mirrored bs o tp f d r cs Hc)).
  rewrite (bind_ok get _ _ _ _ eq_refl). simpl.
  unfold file_io_seek, file_io_read, on_file_io, FileIO.seek, FileIO.read,
    add_offset, world_of.
  unfold_monad. simpl. rewrite Hc, Hd. simpl.
  destruct (FileIO.pos f <? 0) eqn:E; [apply Z.ltb_lt in E; lia|].
  rewrite set_pos_same. simpl. unfold bytes in *.
  rewrite Hc, Hr, Hd. simpl. reflexivity.
Qed.

Lemma write_mirrored bs o tp f d (r : R) cs c b :
  _closed bs = false -> FileIO.closed f = false ->
  FileIO.writable f = true -> 0 <= FileIO.pos f ->
  d !! FileIO.name f = Some c ->
  write b (world_of bs o tp (Some f) d r cs)
  = (Ok (len b),
     world_of bs (FileIO.pos f + len b) tp
       (Some (FileIO.set_pos (written_pos f c b) f))
       (<[FileIO.name f := written f c b]> d) r cs).
Proof.
  intros Hb Hc Hw Hp Hd. unfold write.
  rewrite (bind_ok get _ _ _ _ eq_refl). simpl. rewrite Hb.
  assert (Hl : local (world_of bs o tp (Some f) d r cs)
               = (Ok tt, world_of bs o tp (Some f) d r cs)) by reflexivity.
  rewrite (bind_ok _ _ _ _ _ Hl).
  rewrite (bind_ok _ _ _ _ _ (tell_mirrored bs o tp f d r cs Hc)).
  unfold file_io_seek, file_io_write, on_file_io, FileIO.seek, FileIO.write,
    add_offset, world_of, written, written_pos.
  unfold_monad. simpl. rewrite Hc, Hd. simpl.
  destruct (FileIO.pos f <? 0) eqn:E; [apply Z.ltb_lt in E; lia|].
  rewrite set_pos_same. simpl. unfold bytes in *.
  rewrite Hc, Hw, Hd. simpl.
  destruct (FileIO.appending f); simpl; reflexivity.
Qed.

End MirrorSteps.

(** ** The mode [local] opens the mirror with *)

Lemma chars_local_mode (m : string) :
  chars (local_mode m)
  = List.filter (fun c => char_in c "rw+ax") (chars m).
Proof. unfold local_mode. apply chars_of_list. Qed.

Lemma existsb_filter {A} (p q : A -> bool) (l : list A) :
  existsb p (List.filter q l) = existsb (fun x => p x && q x) l.
Proof.
  induction l as [|x l IH]; simpl; [reflexivity|].
  destruct (q x); simpl; rewrite IH, ?andb_true_r, ?andb_false_r;
    reflexivity.
Qed.

Lemma char_in_local_mode (c : ascii) (m : string) :
  char_in c "rw+ax" = true -> char_in c (local_mode m) = char_in c m.
Proof.
  intros Hc. unfold char_in. rewrite chars_local_mode, existsb_filter.
  induction (chars m) as [|d l IH]; simpl; [reflexivity|].
  rewrite IH. f_equal.
  destruct (Ascii.eqb c d) eqn:E; [|reflexivity].
  apply Ascii.eqb_eq in E. subst d. now rewrite Hc.
Qed.

Lemma filter_filter_length {A} (p q : A -> bool) (l : list A) :
  (forall x, p x = true -> q x = true) ->
  length (List.filter p (List.filter q l)) = length (List.filter p l).
Proof.
  intros H. induction l as [|x l IH]; simpl; [reflexivity|].
  destruct (q x) eqn:Eq; simpl.
  - destruct (p x); simpl; now rewrite IH.
  - destruct (p x) eqn:Ep; [|exact IH].
    apply H in Ep. congruence.
Qed.

Lemma count_in_local_mode (m : string) :
  count_in "rwax" (local_mode m) = count_in "rwax" m.
Proof.
  unfold count_in. rewrite chars_local_mode.
  apply filter_filter_length. intros c Hc.
  apply char_in_In in Hc. apply char_in_In. simpl in *. tauto.
Qed.

Lemma count_char_local_mode (m : string) :
  count_char "+" (local_mode m) = count_char "+" m.
Proof.
  unfold count_char. rewrite chars_local_mode.
  apply filter_filter_length. intros c Hc.
  apply Ascii.eqb_eq in Hc. now subst c.
Qed.

Lemma chars_subset_local_mode (m : string) :
  chars_subset (local_mode m) "xrwab+" = true.
Proof.
  apply chars_subset_spec. intros c Hc.
  rewrite chars_local_mode in Hc. apply filter_In in Hc.
  destruct Hc as [_ Hc]. apply char_in_In in Hc. simpl in *. tauto.
Qed.

(** [FileIO] on the mirror just created, for a mode the grammar accepts
    that does not ask for exclusive creation. *)
Lemma fileio_open_local (m : string) (p : positive) (c : bytes)
    (d : gmap positive bytes) :
  valid_mode m -> char_in "x" m = false -> d !! p = Some c ->
  FileIO.open p (local_mode m) d
  = (Ok (mirror_file m p c), <[p := mirror_bytes m c]> d).
Proof.
  intros Hv Hx Hd. pose proof Hv as (_ & Hcount & _).
  apply valid_mode_checks in Hv. destruct Hv as (_ & H2 & H3).
  pose proof (kinds_present m Hcount) as Hsome.
  pose proof (fun a b Pa Pb => kinds_exclusive m a b Hcount Pa Pb) as Hex.
  unfold FileIO.open, mirror_file, mirror_bytes.
  rewrite chars_subset_local_mode, count_in_local_mode,
    count_char_local_mode, H2, H3.
  rewrite !char_in_local_mode by reflexivity.
  unfold bytes in *. rewrite Hx, Hd. simpl.
  rewrite Hx in Hsome. simpl in Hsome.
  destruct (char_in "r" m) eqn:Hr.
  - rewrite (Hex "r" "w")%char, (Hex "r" "a")%char
      by (reflexivity || discriminate || assumption).
    simpl. now rewrite insert_id.
  - destruct (char_in "w" m) eqn:Hw.
    + rewrite (Hex "w" "a")%char
        by (reflexivity || discriminate || assumption).
      reflexivity.
    + simpl in Hsome. rewrite Hsome. simpl. now rewrite insert_id.
Qed.

Section Materialize.

Context {R : Type} `{Client : CloudClient R}.

(** [local] on a handle without a mirror, in a mode without [x]: the
    temporary file is created under a free name, filled with the object when
    the mode appends or updates and the object exists, and opened with the
    mode's own flags. *)
Lemma local_unmirrored bs o tp d (r : R) cs (m : string) (c0 : bytes) :
  _mode bs = Some m -> valid_mode m -> char_in "x" m = false ->
  (fetches m (client_exists r) = true -> download r = Ok c0) ->
  let p := fresh (dom d) in
  let fetched := if fetches m (client_exists r) then c0 else [] in
  local (world_of bs o tp None d r cs)
  = (Ok tt,
     world_of bs o (Some p) (Some (mirror_file m p fetched))
       (<[p := mirror_bytes m fetched]> d) r
       ((cs ++ [CallExists])
        ++ (if fetches m (client_exists r) then [CallDownload] else []))).
Proof.
  intros Hm Hv Hx Hdl p fetched.
  unfold local, create_temp_file, exists_, mode_str, call_download, world_of.
  unfold_monad. simpl. fold p.
  unfold fetches in *. subst fetched.
  destruct (client_exists r); simpl in *; rewrite ?Hm; simpl;
    [destruct (char_in "a" m || char_in "+" m); simpl in *|].
  - rewrite (Hdl eq_refl). simpl. rewrite ?Hm. simpl.
    rewrite (fileio_open_local m p c0 (<[p:=c0]> (<[p:=[]]> d)) Hv Hx
               (lookup_insert_eq _ _ _)).
    simpl. now rewrite !insert_insert_eq.
  - rewrite ?Hm. simpl.
    rewrite (fileio_open_local m p [] (<[p:=[]]> d) Hv Hx
               (lookup_insert_eq _ _ _)).
    simpl. now rewrite !insert_insert_eq, app_nil_r.
  - rewrite ?Hm. simpl.
    rewrite (fileio_open_local m p [] (<[p:=[]]> d) Hv Hx
               (lookup_insert_eq _ _ _)).
    simpl. now rewrite !insert_insert_eq, app_nil_r.
Qed.

End Materialize.

(** ** Opening, writing and closing, state by state *)

Lemma filter_length_perm {A} (p : A -> bool) (l l' : list A) :
  l ≡ₚ l' -> length (List.filter p l) = length (List.filter p l').
Proof.
  induction 1 as [|x l l' _ IH|x y l|l l' l'' _ IH1 _ IH2]; simpl.
  - reflexivity.
  - destruct (p x); simpl; now rewrite IH.
  - destruct (p x), (p y); reflexivity.
  - now rewrite IH1.
Qed.

(** A rearrangement of a mode the grammar accepts is accepted. *)
Lemma valid_mode_perm (m mode : string) :
  chars m ≡ₚ chars mode -> valid_mode mode -> valid_mode m.
Proof.
  intros Hp (H1 & H2 & H3). unfold valid_mode, count_in, count_char in *.
  rewrite !(filter_length_perm _ _ _ Hp). repeat split; try assumption.
  intros c Hc. apply H1. now rewrite <- Hp.
Qed.

Lemma base_open_valid_mode (mode : string) (b : StorageIOBase) :
  valid_mode mode ->
  exists b' m,
    StorageIOBase_open mode b = (Ok tt, b')
    /\ _closed b' = false /\ _mode b' = Some m /\ valid_mode m
    /\ forall c, char_in c m = char_in c mode.
Proof.
  intros Hv. unfold StorageIOBase_open.
  rewrite (bind_ok get _ b b b eq_refl).
  destruct (_is_same_mode mode b) eqn:Hsame.
  - unfold _is_same_mode in Hsame.
    destruct (_mode b) as [m|] eqn:Hm; [|discriminate].
    destruct m as [|a m']; [discriminate|].
    destruct (String.eqb mode EmptyString) eqn:He.
    + apply String.eqb_eq in He. subst mode.
      destruct Hv as (_ & Hc & _). discriminate Hc.
    + apply bool_decide_eq_true in Hsame.
      exists (set_closed false b), (String a m').
      split; [reflexivity|]. split; [reflexivity|]. split; [exact Hm|].
      split.
      * apply (valid_mode_perm _ mode); [|exact Hv].
        now apply sorted_eq_iff_perm.
      * intros c. now rewrite <- !sorted_char_in, Hsame.
  - rewrite (bind_ok _ _ _ tt (granted mode b) (set_mode_valid mode b Hv)).
    exists (set_closed false (granted mode b)), mode.
    split; [reflexivity|]. split; [reflexivity|]. split; [reflexivity|].
    split; [exact Hv | reflexivity].
Qed.

Lemma len_app (a b : bytes) : len (a ++ b) = len a + len b.
Proof. unfold len. rewrite length_app. lia. Qed.

Lemma overwrite_at_end (c b : bytes) :
  overwrite c (Z.to_nat (len c)) b = c ++ b.
Proof.
  unfold overwrite, len. rewrite Nat2Z.id.
  rewrite firstn_all, Nat.sub_diag. simpl.
  rewrite drop_ge by lia. now rewrite app_nil_r.
Qed.

Lemma overwrite_at_start (c b : bytes) :
  overwrite c 0 b = b ++ drop (length b) c.
Proof. unfold overwrite. now rewrite take_0. Qed.

(** Reading back what was written, from where it was written. *)
Lemma slice_of_overwrite (c b : bytes) (pos : Z) :
  0 <= pos ->
  slice_from (overwrite c (Z.to_nat pos) b) pos (Some (len b)) = b.
Proof.
  intros Hpos. unfold slice_from, overwrite.
  destruct (len b <? 0) eqn:E; [apply Z.ltb_lt in E; unfold len in E; lia|].
  set (p := Z.to_nat pos).
  rewrite (app_assoc (take p c)).
  rewrite drop_app_length'.
  - unfold len. rewrite Nat2Z.id. now rewrite take_app_length.
  - rewrite length_app, length_take, length_replicate. lia.
Qed.

Section SessionSteps.

Context {R : Type} `{Client : CloudClient R}.

(** [open] on a handle without a mirror, up to and including [seek(0)]. *)
Lemma open_unmirrored bs o d (r : R) cs (mode : string) :
  valid_mode mode ->
  exists bs' m,
    _closed bs' = false /\ _mode bs' = Some m /\ valid_mode m
    /\ (forall c, char_in c m = char_in c mode)
    /\ open mode (world_of bs o None None d r cs)
       = (if char_in "a" m then seek (PyInt 0) 2 ;;; ret tt
          else if char_in "w" m then local
          else ret tt) (world_of bs' 0 None None d r cs).
Proof.
  intros Hv.
  destruct (base_open_valid_mode mode bs Hv)
    as (bs' & m & Hopen & Hclosed & Hmode & Hvm & Hchars).
  exists bs', m.
  split; [exact Hclosed|]. split; [exact Hmode|]. split; [exact Hvm|].
  split; [exact Hchars|].
  set (w := world_of bs o None None d r cs).
  unfold open. rewrite (bind_ok get _ w w w eq_refl).
  assert (H1 : (if negb (_closed (base (self w))) then close else ret tt) w
               = (Ok tt, w)).
  { destruct (_closed (base (self w))); simpl; [reflexivity|].
    now apply close_without_mirror. }
  rewrite (bind_ok _ _ _ _ _ H1).
  assert (H2 : inherited (StorageIOBase_open mode) w
               = (Ok tt, world_of bs' o None None d r cs)).
  { unfold inherited, w. simpl. now rewrite Hopen. }
  rewrite (bind_ok _ _ _ _ _ H2).
  assert (H3 : modify (with_self
                         (fun h => set_base (set_closed false (base h)) h))
                 (world_of bs' o None None d r cs)
               = (Ok tt, world_of bs' o None None d r cs)).
  { unfold modify, world_of, with_self, set_base. simpl.
    destruct bs'. simpl in *. now subst. }
  rewrite (bind_ok _ _ _ _ _ H3).
  assert (H4 : seek (PyInt 0) 0 (world_of bs' o None None d r cs)
               = (Ok 0, world_of bs' 0 None None d r cs)).
  { rewrite seek_set; [reflexivity | reflexivity | lia]. }
  rewrite (bind_ok _ _ _ _ _ H4).
  assert (H5 : mode_str (world_of bs' 0 None None d r cs)
               = (Ok m, world_of bs' 0 None None d r cs)).
  { unfold mode_str. unfold_monad. simpl. now rewrite Hmode. }
  rewrite (bind_ok _ _ _ _ _ H5). reflexivity.
Qed.

(** A write that has to make the mirror first goes on as a write on the
    mirror [local] made. *)
Lemma write_after_local (w w1 : world R) (b : bytes) :
  _closed (base (self w)) = false -> local w = (Ok tt, w1) ->
  is_Some (__file_io (self w1)) -> _closed (base (self w1)) = false ->
  write b w = write b w1.
Proof.
  intros Hc Hl [f Hf] Hc1. unfold write.
  rewrite (bind_ok get _ w w w eq_refl), (bind_ok get _ w1 w1 w1 eq_refl).
  rewrite Hc, Hc1.
  assert (Hl1 : local w1 = (Ok tt, w1)).
  { unfold local. unfold_monad. now rewrite Hf. }
  now rewrite (bind_ok _ _ _ _ _ Hl), (bind_ok _ _ _ _ _ Hl1).
Qed.

Lemma close_mirrored bs o p f d (r r' : R) cs (data : bytes) :
  _closed bs = false -> d !! p = Some data ->
  upload data r = (Ok tt, r') ->
  close (world_of bs o (Some p) (Some f) d r cs)
  = (Ok tt,
     world_of (set_closed true bs) o None None (delete p d) r'
       (cs ++ [CallUpload data])).
Proof.
  intros Hc Hd Hu.
  unfold close, open_rb, call_upload, __rm_temp, world_of.
  unfold_monad. simpl. rewrite Hc.
  destruct (FileIO.closed f); simpl; unfold bytes in *;
    rewrite Hd; simpl; rewrite Hu; simpl; rewrite Hd;
    rewrite bool_decide_eq_true_2 by eauto; reflexivity.
Qed.

(** [copy_stream]'s loop on a mirror that stands at its end: the chunks are
    appended in order. *)
Lemma copy_loop_mirrored (src : stream) :
  forall acc bs tp f d (r : R) cs (c : bytes),
    _closed bs = false -> FileIO.closed f = false ->
    FileIO.writable f = true -> FileIO.appending f = false ->
    FileIO.pos f = len c -> d !! FileIO.name f = Some c ->
    copy_loop src acc (world_of bs (len c) tp (Some f) d r cs)
    = (Ok (acc + len (stream_content src)),
       world_of bs (len (c ++ stream_content src)) tp
         (Some (FileIO.set_pos (len (c ++ stream_content src)) f))
         (<[FileIO.name f := c ++ stream_content src]> d) r cs).
Proof.
  induction src as [|b rest IH]; intros acc bs tp f d r cs c Hb Hc Hw Ha Hp Hd.
  - simpl. rewrite app_nil_r, Z.add_0_r, <- Hp, set_pos_same.
    now rewrite insert_id.
  - destruct b as [|x b'].
    + simpl. rewrite app_nil_r, Z.add_0_r, <- Hp, set_pos_same.
      now rewrite insert_id.
    + set (b := x :: b') in *.
      change (stream_content (b :: rest)) with (b ++ stream_content rest).
      change (copy_loop (b :: rest) acc)
        with (n <- write b ;; copy_loop rest (acc + n)).
      assert (Hpos : 0 <= FileIO.pos f) by (rewrite Hp; unfold len; lia).
      rewrite (bind_ok _ _ _ _ _
                 (write_mirrored bs (len c) tp f d r cs c b Hb Hc Hw Hpos Hd)).
      unfold written, written_pos. rewrite Ha, Hp, overwrite_at_end.
      rewrite <- len_app.
      rewrite (IH (acc + len b) bs tp
                 (FileIO.set_pos (len (c ++ b)) f)
                 (<[FileIO.name f := c ++ b]> d) r cs (c ++ b));
        try assumption; try reflexivity; [|apply lookup_insert_eq].
      change (FileIO.name (FileIO.set_pos (len (c ++ b)) f))
        with (FileIO.name f).
      change (FileIO.set_pos (len (c ++ b ++ stream_content rest))
                (FileIO.set_pos (len (c ++ b)) f))
        with (FileIO.set_pos (len (c ++ b ++ stream_content rest)) f).
      rewrite insert_insert_eq, <- !app_assoc, !len_app, !Z.add_assoc.
      reflexivity.
Qed.

End SessionSteps.


Lemma fileio_open_exclusive (m : string) (p : positive) (c : bytes)
    (d : gmap positive bytes) :
  valid_mode m -> char_in "x" m = true -> d !! p = Some c ->
  FileIO.open p (local_mode m) d = (Raise FileExistsError, d).
Proof.
  intros Hv Hx Hd.
  apply valid_mode_checks in Hv. destruct Hv as (_ & H2 & H3).
  unfold FileIO.open.
  rewrite chars_subset_local_mode, count_in_local_mode,
    count_char_local_mode, H2, H3.
  rewrite !char_in_local_mode by reflexivity.
  unfold bytes in *. now rewrite Hx, Hd.
Qed.

Section FirstWrite.

Context {R : Type} `{Client : CloudClient R}.

Lemma write_unmirrored bs o tp d (r : R) cs (m : string) (c0 b : bytes) :
  _closed bs = false -> _mode bs = Some m -> valid_mode m ->
  char_in "x" m = false ->
  char_in "w" m || char_in "a" m || char_in "+" m = true ->
  (fetches m (client_exists r) = true -> download r = Ok c0) ->
  let p := fresh (dom d) in
  let fetched := if fetches m (client_exists r) then c0 else [] in
  let f := mirror_file m p fetched in
  let c := mirror_bytes m fetched in
  write b (world_of bs o tp None d r cs)
  = (Ok (len b),
     world_of bs (FileIO.pos f + len b) (Some p)
       (Some (FileIO.set_pos (written_pos f c b) f))
       (<[p := written f c b]> d) r
       ((cs ++ [CallExists])
        ++ (if fetches m (client_exists r) then [CallDownload] else []))).
Proof.
  intros Hc Hm Hv Hx Hw Hdl p fetched f c.
  pose proof (local_unmirrored bs o tp d r cs m c0 Hm Hv Hx Hdl) as Hl.
  cbv zeta in Hl. fold p fetched f c in Hl.
  rewrite (write_after_local (world_of bs o tp None d r cs) _ b Hc Hl);
    [|simpl; eauto | exact Hc].
  assert (Hpos : 0 <= FileIO.pos f).
  { unfold f, mirror_file. simpl. destruct (char_in "a" m); unfold len; lia. }
  rewrite (write_mirrored bs o (Some p) f (<[p := c]> d) r _ c b Hc
             eq_refl Hw Hpos (lookup_insert_eq _ _ _)).
  change (FileIO.name f) with p. now rewrite insert_insert_eq.
Qed.

(** X10: the first write of a session with no mirror yet makes the mirror
    (downloading the object when it exists and the mode appends or updates)
    and puts the bytes where the mirror's file object stands: at the start,
    or at the end for an append.  The handle's own offset plays no part: a
    [seek] or a remote read before the first write does not move where it
    lands. *)
Theorem first_write_lands_at_mirror_position
    bs o tp d (r : R) cs (m : string) (c0 b : bytes) :
  _closed bs = false -> _mode bs = Some m -> valid_mode m ->
  char_in "x" m = false ->
  char_in "w" m || char_in "a" m || char_in "+" m = true ->
  (fetches m (client_exists r) = true -> download r = Ok c0) ->
  let p := fresh (dom d) in
  let fetched := if fetches m (client_exists r) then c0 else [] in
  let start := if char_in "a" m then len fetched else 0 in
  write b (world_of bs o tp None d r cs)
  = (Ok (len b),
     world_of bs (start + len b) (Some p)
       (Some (FileIO.set_pos (start + len b) (mirror_file m p fetched)))
       (<[p := session_bytes m fetched b]> d) r
       ((cs ++ [CallExists])
        ++ (if fetches m (client_exists r) then [CallDownload] else []))).
Proof.
  intros Hc Hm Hv Hx Hw Hdl p fetched start.
  rewrite (write_unmirrored bs o tp d r cs m c0 b Hc Hm Hv Hx Hw Hdl).
  cbv zeta. fold p fetched.
  pose proof Hv as (_ & Hcount & _).
  pose proof (fun a b Pa Pb => kinds_exclusive m a b Hcount Pa Pb) as Hex.
  unfold written, written_pos, mirror_bytes, session_bytes, start.
  simpl. destruct (char_in "a" m) eqn:Ha.
  - rewrite (Hex "a" "w")%char
      by (reflexivity || discriminate || assumption).
    reflexivity.
  - destruct (char_in "w" m).
    + rewrite overwrite_at_start. simpl. rewrite drop_nil, app_nil_r.
      reflexivity.
    + now rewrite overwrite_at_start.
Qed.

(** X11: in a mode with [x] no write ever succeeds.  [local] creates the
    temporary file and then opens it for exclusive creation, which the file
    just created makes fail: [write] raises FileExistsError, the handle has
    no mirror, and one more temporary file is left on the disk. *)
Theorem exclusive_mode_cannot_write
    bs o tp d (r : R) cs (m : string) (c0 b : bytes) :
  _closed bs = false -> _mode bs = Some m -> valid_mode m ->
  char_in "x" m = true ->
  (fetches m (client_exists r) = true -> download r = Ok c0) ->
  let p := fresh (dom d) in
  let fetched := if fetches m (client_exists r) then c0 else [] in
  d !! p = None
  /\ write b (world_of bs o tp None d r cs)
     = (Raise FileExistsError,
        world_of bs o tp None (<[p := fetched]> d) r
          ((cs ++ [CallExists])
           ++ (if fetches m (client_exists r) then [CallDownload] else []))).
Proof.
  intros Hc Hm Hv Hx Hdl p fetched.
  split; [apply not_elem_of_dom, is_fresh|].
  unfold write. rewrite (bind_ok get _ _ _ _ eq_refl). simpl. rewrite Hc.
  apply bind_raise.
  unfold local, create_temp_file, exists_, mode_str, call_download, world_of.
  unfold_monad. simpl. fold p.
  unfold fetches in *. subst fetched.
  destruct (client_exists r); simpl in *; rewrite ?Hm; simpl;
    [destruct (char_in "a" m || char_in "+" m); simpl in *|].
  - rewrite (Hdl eq_refl). simpl. rewrite ?Hm. simpl.
    rewrite (fileio_open_exclusive m p c0 (<[p:=c0]> (<[p:=[]]> d)) Hv Hx
               (lookup_insert_eq _ _ _)).
    simpl. now rewrite !insert_insert_eq.
  - rewrite ?Hm. simpl.
    rewrite (fileio_open_exclusive m p [] (<[p:=[]]> d) Hv Hx
               (lookup_insert_eq _ _ _)).
    simpl. now rewrite app_nil_r.
  - rewrite (fileio_open_exclusive m p [] (<[p:=[]]> d) Hv Hx
               (lookup_insert_eq _ _ _)).
    simpl. now rewrite app_nil_r.
Qed.

End FirstWrite.

Lemma valid_mode_update : valid_mode "r+".
Proof. apply valid_mode_checks. repeat split; reflexivity. Qed.

Lemma valid_mode_wb : valid_mode "wb".
Proof. apply valid_mode_checks. repeat split; reflexivity. Qed.

Lemma valid_mode_create : valid_mode "x".
Proof. apply valid_mode_checks. repeat split; reflexivity. Qed.

(** After [open("r+")] and [seek(5)], the first write still lands at the
    start of the downloaded object. *)
Lemma first_write_lands_at_mirror_position_witness :
  let bs := set_closed false (granted "r+" StorageIOBase_init) in
  let w := world_of bs 5 None None ∅ (existing hello) [] in
  fst (write (list_byte_of_string "HELLO") w) = Ok 5
  /\ disk (snd (write (list_byte_of_string "HELLO") w)) !! 1%positive
     = Some (list_byte_of_string "HELLO world!")
  /\ _offset (self (snd (write (list_byte_of_string "HELLO") w))) = 5.
Proof.
  intros bs w. unfold w.
  rewrite (first_write_lands_at_mirror_position (Client := store_client)
             bs 5 None ∅ (existing hello)
             [] "r+" hello (list_byte_of_string "HELLO")
             eq_refl eq_refl valid_mode_update eq_refl eq_refl
             ltac:(intros _; reflexivity)).
  repeat split.
Defined.

Lemma exclusive_mode_cannot_write_witness :
  let bs := set_closed false (granted "x" StorageIOBase_init) in
  let w := world_of bs 0 None None ∅ missing [] in
  fst (write hello w) = Raise FileExistsError
  /\ disk (snd (write hello w)) !! 1%positive = Some []
  /\ __file_io (self (snd (write hello w))) = None.
Proof.
  intros bs w. unfold w.
  destruct (exclusive_mode_cannot_write (Client := store_client) bs 0 None ∅ missing [] "x" [] hello
              eq_refl eq_refl valid_mode_create eq_refl
              ltac:(intros H; discriminate H))
    as [_ H].
  rewrite H. repeat split.
Defined.

(** ** Whole sessions *)

Section WholeSessions.

Context {R : Type} `{Client : CloudClient R}.

(** X12: [load_from] on a closed handle without a mirror opens it with
    "wb", appends the stream's chunks up to the first empty one, and closes
    it: when the upload goes through, the client has been asked whether the
    object exists and then given exactly the stream's bytes, nothing was
    downloaded, the count of the bytes is returned, the handle is closed
    again and the temporary file is gone. *)
Theorem load_from_uploads_the_stream (w : world R) (src : stream) (r' : R) :
  _closed (base (self w)) = true ->
  __file_io (self w) = None -> temp_path (self w) = None ->
  upload (stream_content src) (cloud w) = (Ok tt, r') ->
  let w' := snd (load_from src w) in
  fst (load_from src w) = Ok (len (stream_content src))
  /\ cloud w' = r'
  /\ calls w' = calls w ++ [CallExists; CallUpload (stream_content src)]
  /\ disk w' = disk w
  /\ _closed (base (self w')) = true
  /\ __file_io (self w') = None
  /\ temp_path (self w') = None.
Proof.
  destruct w as [[bs o tp fio] d r cs]. simpl. intros Hc -> -> Hu.
  change {| self := {| base := bs; _offset := o; temp_path := None;
                       __file_io := None |};
            disk := d; cloud := r; calls := cs |}
    with (world_of bs o None None d r cs).
  set (p := fresh (dom d)).
  set (content := stream_content src) in *.
  destruct (open_unmirrored bs o d r cs "wb" valid_mode_wb)
    as (bs' & m & Hcl & Hm & Hvm & Hch & Hopen).
  assert (Ha : char_in "a" m = false) by now rewrite Hch.
  assert (Hw : char_in "w" m = true) by now rewrite Hch.
  assert (Hx : char_in "x" m = false) by now rewrite Hch.
  assert (Hplus : char_in "+" m = false) by now rewrite Hch.
  assert (Hf : fetches m (client_exists r) = false).
  { unfold fetches. rewrite Ha, Hplus. apply andb_false_r. }
  rewrite Ha, Hw in Hopen.
  pose proof (local_unmirrored bs' 0 None d r cs m [] Hm Hvm Hx
                ltac:(rewrite Hf; discriminate)) as Hl.
  cbv zeta in Hl. fold p in Hl. rewrite Hf, app_nil_r in Hl.
  unfold mirror_bytes in Hl. rewrite Hw in Hl.
  set (f := mirror_file m p []) in *.
  rewrite Hl in Hopen.
  pose proof (copy_loop_mirrored src 0 bs' (Some p) f (<[p := []]> d) r
                (cs ++ [CallExists]) [] Hcl eq_refl
                ltac:(unfold f; simpl; now rewrite Hw)
                ltac:(unfold f; simpl; exact Ha)
                ltac:(unfold f; simpl; now rewrite Ha)
                (lookup_insert_eq _ _ _)) as Hcopy.
  change (len []) with 0 in Hcopy.
  change (FileIO.name f) with p in Hcopy.
  rewrite insert_insert_eq in Hcopy. simpl app in Hcopy. fold content in Hcopy.
  pose proof (close_mirrored bs' (len content) p
                (FileIO.set_pos (len content) f) (<[p := content]> d) r r'
                (cs ++ [CallExists]) content Hcl (lookup_insert_eq _ _ _) Hu)
    as Hclose.
  assert (Hd : delete p (<[p := content]> d) = d).
  { apply delete_insert_id. apply not_elem_of_dom, is_fresh. }
  rewrite Hd in Hclose.
  assert (Hall : load_from src (world_of bs o None None d r cs)
                 = (Ok (len content),
                    world_of (set_closed true bs') (len content) None None d
                      r' ((cs ++ [CallExists]) ++ [CallUpload content]))).
  { unfold load_from. rewrite (bind_ok get _ _ _ _ eq_refl). simpl.
    rewrite Hc. unfold with_open.
    rewrite (bind_ok _ _ _ _ _ Hopen).
    unfold copy_stream, flush.
    rewrite (bind_ok _ _ _ _ _ Hcopy). unfold_monad.
    rewrite Z.add_0_l. unfold bytes in *. now rewrite Hclose. }
  rewrite Hall. simpl. rewrite <- app_assoc. repeat split.
Qed.

End WholeSessions.

Lemma load_from_uploads_the_stream_witness :
  let src := [list_byte_of_string "hello"; list_byte_of_string " world!";
              []; list_byte_of_string "never read"] in
  fst (load_from src (fresh_world (existing [x00]))) = Ok 12
  /\ cloud (snd (load_from src (fresh_world (existing [x00]))))
     = existing hello.
Proof.
  intros src.
  destruct (load_from_uploads_the_stream (Client := store_client)
              (fresh_world (existing [x00])) src
              (existing hello) eq_refl eq_refl eq_refl ltac:(reflexivity))
    as (H1 & H2 & _).
  split; [exact H1 | exact H2].
Defined.

Lemma mirror_file_ext (m m' : string) (p : positive) (c : bytes) :
  (forall a, char_in a m = char_in a m') ->
  mirror_file m p c = mirror_file m' p c.
Proof. intros H. unfold mirror_file. now rewrite !H. Qed.

(** The bytes in the mirror after the first write, read off the mode. *)
Lemma written_session (m : string) (p : positive) (fetched b : bytes) :
  valid_mode m ->
  written (mirror_file m p fetched) (mirror_bytes m fetched) b
  = session_bytes m fetched b.
Proof.
  intros (_ & Hcount & _).
  pose proof (fun a b Pa Pb => kinds_exclusive m a b Hcount Pa Pb) as Hex.
  unfold written, mirror_bytes, session_bytes. simpl.
  destruct (char_in "a" m) eqn:Ha.
  - rewrite (Hex "a" "w")%char
      by (reflexivity || discriminate || assumption).
    reflexivity.
  - destruct (char_in "w" m).
    + rewrite overwrite_at_start. simpl. now rewrite drop_nil, app_nil_r.
    + now rewrite overwrite_at_start.
Qed.

Section OneWrite.

Context {R : Type} `{Client : CloudClient R}.

(** X13: a session of [open], one [write] and [close] on a handle without a
    mirror, in a writable mode without [x].  What is uploaded is read off the
    mode: the object's bytes followed by the written ones for an append,
    the written bytes alone for a mode with [w], the written bytes over the
    start of the object for an update.  The object is downloaded only when
    it exists and the mode appends or updates; its size is looked up only
    for an append; no ranged read is made; the temporary file is gone and
    the handle closed at the end. *)
Theorem single_write_session
    bs o d (r r' : R) cs (mode : string) (n : Z) (c0 b : bytes) :
  valid_mode mode -> char_in "x" mode = false ->
  char_in "w" mode || char_in "a" mode || char_in "+" mode = true ->
  (char_in "a" mode = true -> get_size r = Ok n) ->
  (fetches mode (client_exists r) = true -> download r = Ok c0) ->
  let fetched := if fetches mode (client_exists r) then c0 else [] in
  let data := session_bytes mode fetched b in
  upload data r = (Ok tt, r') ->
  let run := (open mode ;;; write b ;;; close)
               (world_of bs o None None d r cs) in
  fst run = Ok tt
  /\ cloud (snd run) = r'
  /\ disk (snd run) = d
  /\ _closed (base (self (snd run))) = true
  /\ __file_io (self (snd run)) = None
  /\ temp_path (self (snd run)) = None
  /\ calls (snd run)
     = cs ++ (if char_in "a" mode then [CallGetSize] else [])
       ++ [CallExists]
       ++ (if fetches mode (client_exists r) then [CallDownload] else [])
       ++ [CallUpload data].
Proof.
  intros Hv Hx Hw Hn Hdl fetched data Hu run.
  set (p := fresh (dom d)).
  destruct (open_unmirrored bs o d r cs mode Hv)
    as (bs' & m & Hcl & Hm & Hvm & Hch & Hopen).
  assert (Hfe : fetches m (client_exists r) = fetches mode (client_exists r)).
  { unfold fetches. now rewrite !Hch. }
  assert (Hsb : session_bytes m fetched b = data).
  { unfold data, session_bytes. now rewrite !Hch. }
  assert (Hxm : char_in "x" m = false) by now rewrite Hch.
  assert (Hwm : char_in "w" m || char_in "a" m || char_in "+" m = true)
    by now rewrite !Hch.
  assert (Hdlm : fetches m (client_exists r) = true -> download r = Ok c0)
    by (rewrite Hfe; exact Hdl).
  set (f := mirror_file m p fetched).
  set (c := mirror_bytes m fetched).
  assert (Hpos : 0 <= FileIO.pos f).
  { unfold f, mirror_file. simpl. destruct (char_in "a" m); unfold len; lia. }
  assert (Hd : delete p (<[p := data]> d) = d).
  { apply delete_insert_id. apply not_elem_of_dom, is_fresh. }
  assert (Hws : written f c b = data).
  { unfold f, c. now rewrite written_session, Hsb. }
  (* the state after [write], whatever the path to it *)
  assert (Hafter : forall cs1,
            close (world_of bs' (FileIO.pos f + len b) (Some p)
                     (Some (FileIO.set_pos (written_pos f c b) f))
                     (<[p := data]> d) r cs1)
            = (Ok tt, world_of (set_closed true bs') (FileIO.pos f + len b)
                        None None d r' (cs1 ++ [CallUpload data]))).
  { intros cs1.
    rewrite (close_mirrored bs' _ p _ (<[p := data]> d) r r' cs1 data Hcl
               (lookup_insert_eq _ _ _) Hu).
    now rewrite Hd. }
  assert (Hfirst : forall o1 cs1,
            write b (world_of bs' o1 None None d r cs1)
            = (Ok (len b),
               world_of bs' (FileIO.pos f + len b) (Some p)
                 (Some (FileIO.set_pos (written_pos f c b) f))
                 (<[p := data]> d) r
                 ((cs1 ++ [CallExists])
                  ++ (if fetches m (client_exists r)
                      then [CallDownload] else [])))).
  { intros o1 cs1.
    rewrite (write_unmirrored bs' o1 None d r cs1 m c0 b Hcl Hm Hvm Hxm Hwm
               Hdlm).
    cbv zeta. fold p. rewrite Hfe. fold fetched f c.
    now rewrite Hws. }
  unfold run.
  rewrite (Hch "a"%char), (Hch "w"%char) in Hopen.
  destruct (char_in "a" mode) eqn:Ha.
  - (* append: the size is looked up, the mirror is made by [write] *)
    assert (Hseek : seek (PyInt 0) 2 (world_of bs' 0 None None d r cs)
                    = (Ok (Z.max 0 (n + 0)),
                       world_of bs' (Z.max 0 (n + 0)) None None d r
                         (cs ++ [CallGetSize]))).
    { now rewrite (seek_end (world_of bs' 0 None None d r cs) 0 n eq_refl
                     (Hn eq_refl)). }
    rewrite (bind_ok _ _ _ _ _ Hseek) in Hopen.
    rewrite (bind_ok _ _ _ _ _ Hopen).
    rewrite (bind_ok _ _ _ _ _ (Hfirst _ _)), Hafter, Hfe.
    simpl. rewrite <- !app_assoc. repeat split.
  - destruct (char_in "w" mode) eqn:Hw'.
    + (* a mode with [w]: [open] makes the mirror *)
      pose proof (local_unmirrored bs' 0 None d r cs m c0 Hm Hvm Hxm Hdlm)
        as Hl.
      cbv zeta in Hl. fold p in Hl. rewrite Hfe in Hl. fold fetched f c in Hl.
      rewrite Hl in Hopen.
      rewrite (bind_ok _ _ _ _ _ Hopen).
      rewrite (bind_ok _ _ _ _ _
                 (write_mirrored bs' 0 (Some p) f (<[p := c]> d) r _ c b Hcl
                    eq_refl Hwm Hpos (lookup_insert_eq _ _ _))).
      change (FileIO.name f) with p. rewrite insert_insert_eq, Hws.
      rewrite Hafter. simpl. rewrite <- !app_assoc. repeat split.
    + (* an update: [open] touches nothing *)
      rewrite (bind_ok _ _ _ _ _ Hopen).
      rewrite (bind_ok _ _ _ _ _ (Hfirst _ _)), Hafter, Hfe.
      simpl. rewrite <- !app_assoc. repeat split.
Qed.

End OneWrite.

(** Appending two bytes to the object: both are uploaded after its own. *)
Lemma single_write_session_witness :
  let run := (open "a" ;;; write (list_byte_of_string "!!") ;;; close)
               (world_of StorageIOBase_init 0 None None ∅
                  (existing hello) []) in
  fst run = Ok tt
  /\ cloud (snd run) = existing (list_byte_of_string "hello world!!!")
  /\ disk (snd run) = ∅.
Proof.
  intros run.
  destruct (single_write_session (Client := store_client)
              StorageIOBase_init 0 ∅ (existing hello)
              (existing (list_byte_of_string "hello world!!!")) []
              "a" 12 hello (list_byte_of_string "!!")
              valid_mode_a eq_refl eq_refl
              ltac:(intros _; reflexivity) ltac:(intros _; reflexivity)
              ltac:(reflexivity))
    as (H1 & H2 & H3 & _).
  split; [exact H1 | split; [exact H2 | exact H3]].
Defined.

Lemma slice_from_fits (c : bytes) (pos n : Z) :
  0 <= n -> (length (slice_from c pos (Some n)) <= Z.to_nat n)%nat.
Proof.
  intros Hn. unfold slice_from.
  destruct (n <? 0) eqn:E; [apply Z.ltb_lt in E; lia|].
  rewrite length_take. lia.
Qed.

Section MirrorReads.

Context {R : Type} `{Client : CloudClient R}.

(** X14: on a handle with a mirror whose file object is open and readable,
    [read] returns the mirror's bytes from the file object's position on:
    all of them when the size is [None] or negative, at most [size] of them
    otherwise.  The handle's own offset from before the call plays no part;
    after the call it is the file object's position plus the count read.
    The disk, the object and the log of client calls are as they were;
    [readall] is the read of everything. *)
Theorem read_is_served_from_mirror
    (w : world R) (f : FileIO.t) (c : bytes) (sz : option Z) :
  __file_io (self w) = Some f ->
  FileIO.closed f = false -> FileIO.readable f = true ->
  0 <= FileIO.pos f -> disk w !! FileIO.name f = Some c ->
  let data := slice_from c (FileIO.pos f) sz in
  fst (read sz w) = Ok data
  /\ _offset (self (snd (read sz w))) = FileIO.pos f + len data
  /\ disk (snd (read sz w)) = disk w
  /\ cloud (snd (read sz w)) = cloud w
  /\ calls (snd (read sz w)) = calls w
  /\ fst (readall w) = Ok (drop (Z.to_nat (FileIO.pos f)) c).
Proof.
  intros Hf Hc Hr Hp Hd data.
  destruct w as [[bs o tp fio] d r cs]. simpl in Hf, Hd. subst fio.
  pose proof (read_mirrored bs o tp f d r cs c sz Hc Hr Hp Hd) as H.
  pose proof (read_mirrored bs o tp f d r cs c None Hc Hr Hp Hd) as Hall.
  unfold world_of in H, Hall. cbv zeta in H, Hall.
  unfold readall. rewrite H, Hall. repeat split.
Qed.

(** X15: on a mirror whose file object is open, readable, writable and not
    appending, what [write] puts down is what a [read] of as many bytes
    returns after seeking back to where the write began; the write returns
    the count, and none of the three calls the client. *)
Theorem write_then_read_back
    (w : world R) (f : FileIO.t) (c b : bytes) :
  _closed (base (self w)) = false ->
  __file_io (self w) = Some f ->
  FileIO.closed f = false -> FileIO.writable f = true ->
  FileIO.readable f = true -> FileIO.appending f = false ->
  0 <= FileIO.pos f -> disk w !! FileIO.name f = Some c ->
  let w1 := snd (write b w) in
  let w2 := snd (seek (PyInt (FileIO.pos f)) 0 w1) in
  fst (write b w) = Ok (len b)
  /\ fst (seek (PyInt (FileIO.pos f)) 0 w1) = Ok (FileIO.pos f)
  /\ fst (read (Some (len b)) w2) = Ok b
  /\ _offset (self (snd (read (Some (len b)) w2))) = FileIO.pos f + len b
  /\ calls (snd (read (Some (len b)) w2)) = calls w.
Proof.
  intros Hb Hf Hc Hw Hr Ha Hp Hd.
  destruct w as [[bs o tp fio] d r cs]. simpl in Hb, Hf, Hd. subst fio.
  pose proof (write_mirrored bs o tp f d r cs c b Hb Hc Hw Hp Hd) as H1.
  set (f1 := FileIO.set_pos (written_pos f c b) f) in *.
  set (d1 := <[FileIO.name f := written f c b]> d) in *.
  assert (Hd1 : d1 !! FileIO.name f1 = Some (written f c b))
    by apply lookup_insert_eq.
  pose proof (seek_mirrored bs (FileIO.pos f + len b) tp f1 d1 r cs _
                (FileIO.pos f) Hc Hd1 Hp) as H2.
  set (f2 := FileIO.set_pos (FileIO.pos f) f1) in *.
  pose proof (read_mirrored bs (FileIO.pos f) tp f2 d1 r cs _
                (Some (len b)) Hc Hr Hp Hd1) as H3.
  cbv zeta in H3. change (FileIO.pos f2) with (FileIO.pos f) in H3.
  assert (Hs : slice_from (written f c b) (FileIO.pos f) (Some (len b)) = b).
  { unfold written. rewrite Ha. now apply slice_of_overwrite. }
  rewrite Hs in H3.
  unfold world_of in H1, H2, H3.
  rewrite H1. simpl. rewrite H2. simpl. rewrite H3. repeat split.
Qed.

(** X16: [readinto] on a mirror whose file object is open and readable: the
    buffer's first bytes become the mirror's bytes from the file object's
    position on, as many as the buffer can take and the mirror still has;
    the rest of the buffer and its length are as they were, and the count
    returned is the number of bytes put in. *)
Theorem readinto_fills_from_mirror
    (w : world R) (f : FileIO.t) (c buf : bytes) :
  __file_io (self w) = Some f ->
  FileIO.closed f = false -> FileIO.readable f = true ->
  0 <= FileIO.pos f -> disk w !! FileIO.name f = Some c ->
  let data := take (length buf) (drop (Z.to_nat (FileIO.pos f)) c) in
  fst (readinto buf w) = Ok (len data, data ++ drop (length data) buf)
  /\ length (data ++ drop (length data) buf) = length buf
  /\ _offset (self (snd (readinto buf w))) = FileIO.pos f + len data.
Proof.
  intros Hf Hc Hr Hp Hd data.
  destruct w as [[bs o tp fio] d r cs]. simpl in Hf, Hd. subst fio.
  pose proof (read_mirrored bs o tp f d r cs c (Some (len buf)) Hc Hr Hp Hd)
    as H.
  cbv zeta in H.
  assert (Hs : slice_from c (FileIO.pos f) (Some (len buf)) = data).
  { unfold slice_from, data, len.
    destruct (Z.of_nat (length buf) <? 0) eqn:E;
      [apply Z.ltb_lt in E; lia|].
    now rewrite Nat2Z.id. }
  rewrite Hs in H. unfold world_of in H.
  assert (Hfit : (length data <= length buf)%nat).
  { unfold data. rewrite length_take. lia. }
  unfold readinto. rewrite (bind_ok _ _ _ _ _ H).
  apply Nat.leb_le in Hfit as Hfit'. rewrite Hfit'.
  split; [reflexivity|]. split; [|reflexivity].
  rewrite length_app, length_drop. lia.
Qed.

End MirrorReads.

(** A mirror of the twelve bytes, its file object standing at 6. *)
Lemma read_is_served_from_mirror_witness :
  let f := FileIO.set_pos 6 (mirror_file "r+" 1 hello) in
  let w := world_of (set_closed false (granted "r+" StorageIOBase_init))
             0 (Some 1%positive) (Some f) {[1%positive := hello]}
             (existing hello) [] in
  fst (read (Some 3) w) = Ok (list_byte_of_string "wor")
  /\ _offset (self (snd (read (Some 3) w))) = 9.
Proof.
  intros f w.
  destruct (read_is_served_from_mirror (Client := store_client) w f hello
              (Some 3) eq_refl eq_refl eq_refl ltac:(simpl; lia)
              ltac:(reflexivity))
    as (H1 & H2 & _).
  split; [exact H1 | exact H2].
Defined.

Lemma write_then_read_back_witness :
  let f := FileIO.set_pos 6 (mirror_file "r+" 1 hello) in
  let w := world_of (set_closed false (granted "r+" StorageIOBase_init))
             0 (Some 1%positive) (Some f) {[1%positive := hello]}
             (existing hello) [] in
  let b := list_byte_of_string "WORLD" in
  fst (read (Some 5) (snd (seek (PyInt 6) 0 (snd (write b w))))) = Ok b.
Proof.
  intros f w b.
  destruct (write_then_read_back (Client := store_client) w f hello b
              eq_refl eq_refl eq_refl eq_refl eq_refl eq_refl
              ltac:(simpl; lia) ltac:(reflexivity))
    as (_ & _ & H & _).
  exact H.
Defined.

Lemma readinto_fills_from_mirror_witness :
  let f := FileIO.set_pos 6 (mirror_file "r+" 1 hello) in
  let w := world_of (set_closed false (granted "r+" StorageIOBase_init))
             0 (Some 1%positive) (Some f) {[1%positive := hello]}
             (existing hello) [] in
  fst (readinto (list_byte_of_string "........") w)
  = Ok (6, list_byte_of_string "world!..").
Proof.
  intros f w.
  destruct (readinto_fills_from_mirror (Client := store_client) w f hello
              (list_byte_of_string "........")
              eq_refl eq_refl eq_refl ltac:(simpl; lia) ltac:(reflexivity))
    as (H & _).
  exact H.
Defined.

Section ReadOnly.

Context {R : Type} `{Client : CloudClient R}.

Lemma untouched_refl (w : world R) :
  __file_io (self w) = None -> untouched w w.
Proof.
  intros H. unfold untouched. repeat (split; [easy|]).
  exists []. now rewrite app_nil_r.
Qed.

Lemma untouched_trans (w1 w2 w3 : world R) :
  untouched w1 w2 -> untouched w2 w3 -> untouched w1 w3.
Proof.
  intros (_ & Ht & Hb & Hd & Hc & e1 & He1 & Hl1)
         (Hf & Ht' & Hb' & Hd' & Hc' & e2 & He2 & Hl2).
  unfold untouched.
  split; [exact Hf|]. split; [congruence|]. split; [congruence|].
  split; [congruence|]. split; [congruence|].
  exists (e1 ++ e2). rewrite He2, He1, <- app_assoc, forallb_app, Hl1, Hl2.
  now split.
Qed.

Ltac untouched_leaf :=
  unfold untouched; simpl;
  repeat (split; [reflexivity|]);
  first [ exists []; split; [now rewrite app_nil_r | reflexivity]
        | eexists; split; [rewrite <- ?app_assoc; reflexivity | reflexivity] ].

Lemma untouched_step (o : op) (w : world R) :
  reads_only o = true -> __file_io (self w) = None ->
  untouched w (step o w).
Proof.
  destruct w as [[bs off tp fio] d r cs]. simpl. intros Ho ->.
  destruct o as [sz|b|pos whence| | |]; try discriminate Ho; simpl.
  - unfold read, tell, exists_, size, call_get_size, call_read_bytes,
      add_offset.
    unfold_monad. simpl.
    destruct (client_exists r); simpl; [|untouched_leaf].
    destruct (get_size r) as [n|e]; simpl; [|untouched_leaf].
    destruct (n =? 0); simpl; [untouched_leaf|].
    destruct (n <? off); simpl; [untouched_leaf|].
    match goal with
    | |- context [read_bytes r ?a ?b] => destruct (read_bytes r a b)
    end; simpl; untouched_leaf.
  - unfold seek, _seek, size, call_get_size. unfold_monad. simpl.
    destruct pos as [p| | |]; simpl; try untouched_leaf.
    destruct (whence =? 0); simpl;
      [destruct (p <? 0); simpl; untouched_leaf|].
    destruct (whence =? 1); simpl; [untouched_leaf|].
    destruct (whence =? 2); simpl; [|untouched_leaf].
    destruct (get_size r); simpl; untouched_leaf.
  - unfold tell. unfold_monad. simpl. untouched_leaf.
  - unfold size, call_get_size. unfold_monad. simpl.
    destruct (get_size r); simpl; untouched_leaf.
Qed.

Lemma untouched_run (ops : list op) :
  forall w : world R,
    forallb reads_only ops = true -> __file_io (self w) = None ->
    untouched w (run ops w).
Proof.
  induction ops as [|o ops IH]; intros w Hall Hf; simpl.
  - now apply untouched_refl.
  - simpl in Hall. apply andb_true_iff in Hall as [Ho Hall].
    pose proof (untouched_step o w Ho Hf) as Hs.
    apply (untouched_trans _ _ _ Hs).
    apply IH; [exact Hall | apply Hs].
Qed.

(** X17: a session that opens the handle in a mode without [a] and [w],
    then only reads, seeks, tells and asks for the size, and closes.  All
    the client is asked are lookups of the object: nothing is downloaded
    and nothing uploaded, no file appears on the disk, the object is as it
    was, and [close] returns without a mirror to remove. *)
Theorem read_only_session_leaves_no_trace
    bs o d (r : R) cs (mode : string) (ops : list op) :
  valid_mode mode ->
  char_in "a" mode = false -> char_in "w" mode = false ->
  forallb reads_only ops = true ->
  let w0 := world_of bs o None None d r cs in
  let w1 := run ops (snd (open mode w0)) in
  fst (open mode w0) = Ok tt
  /\ close w1 = (Ok tt, w1)
  /\ disk w1 = d /\ cloud w1 = r
  /\ __file_io (self w1) = None /\ temp_path (self w1) = None
  /\ exists extra, calls w1 = cs ++ extra
                   /\ forallb lookup_only extra = true.
Proof.
  intros Hv Ha Hw Hops w0 w1.
  destruct (open_unmirrored bs o d r cs mode Hv)
    as (bs' & m & _ & _ & _ & Hch & Hopen).
  rewrite !Hch, Ha, Hw in Hopen.
  assert (Ho : open mode w0 = (Ok tt, world_of bs' 0 None None d r cs))
    by exact Hopen.
  destruct (untouched_run ops (world_of bs' 0 None None d r cs) Hops eq_refl)
    as (Hf & Ht & _ & Hd & Hc & Hcalls).
  unfold w1. rewrite Ho. simpl.
  split; [reflexivity|].
  split; [apply close_without_mirror; [exact Hf | exact Ht]|].
  split; [exact Hd|]. split; [exact Hc|].
  split; [exact Hf|]. split; [exact Ht|]. exact Hcalls.
Qed.

End ReadOnly.

Lemma valid_mode_r : valid_mode "r".
Proof. apply valid_mode_checks. repeat split; reflexivity. Qed.

Lemma read_only_session_leaves_no_trace_witness :
  let ops := [OpRead (Some 3); OpSeek (PyInt 0) 2; OpTell; OpSize] in
  let w1 := run ops (snd (open "r" (world_of StorageIOBase_init 0 None None
                                      ∅ (existing hello) []))) in
  disk w1 = ∅ /\ cloud w1 = existing hello.
Proof.
  intros ops w1.
  destruct (read_only_session_leaves_no_trace (Client := store_client)
              StorageIOBase_init 0 ∅ (existing hello) [] "r" ops
              valid_mode_r eq_refl eq_refl eq_refl)
    as (_ & _ & H1 & H2 & _).
  split; [exact H1 | exact H2].
Defined.

(** ** Opening for append *)

Section OpenAppend.

Context {R : Type} `{Client : CloudClient R}.

Lemma seek_end_mirrored bs o tp f d (r : R) cs c p :
  FileIO.closed f = false -> d !! FileIO.name f = Some c ->
  0 <= len c + p ->
  seek (PyInt p) 2 (world_of bs o tp (Some f) d r cs)
  = (Ok (len c + p),
     world_of bs (len c + p) tp (Some (FileIO.set_pos (len c + p) f))
       d r cs).
Proof.
  intros Hc Hd Hp.
  unfold seek, file_io_seek, on_file_io, FileIO.seek, world_of.
  unfold_monad. simpl. rewrite Hc, Hd. simpl.
  destruct (len c + p <? 0) eqn:E; [apply Z.ltb_lt in E; lia | reflexivity].
Qed.

(** [open] for append on a closed handle that holds a file object: there
    is no [close], and both seeks go to the file object. *)
Lemma open_append_closed_mirror bs o tp f d (r : R) cs c (mode : string) :
  valid_mode mode -> char_in "a" mode = true ->
  _closed bs = true -> FileIO.closed f = false ->
  d !! FileIO.name f = Some c ->
  exists b,
    open mode (world_of bs o tp (Some f) d r cs)
    = (Ok tt,
       world_of b (len c) tp (Some (FileIO.set_pos (len c) f)) d r cs).
Proof.
  intros Hv Ha Hc Hfc Hd.
  destruct (base_open_valid mode bs Hv)
    as (b & m & Hopen & Hclosed & Hmode & Hchars).
  exists b. set (w := world_of bs o tp (Some f) d r cs).
  unfold open. rewrite (bind_ok get _ w w w eq_refl).
  assert (H1 : (if negb (_closed (base (self w))) then close else ret tt) w
               = (Ok tt, w)) by (simpl; now rewrite Hc).
  rewrite (bind_ok _ _ _ _ _ H1).
  assert (H2 : inherited (StorageIOBase_open mode) w
               = (Ok tt, world_of b o tp (Some f) d r cs)).
  { unfold inherited. simpl. now rewrite Hopen. }
  rewrite (bind_ok _ _ _ _ _ H2).
  unfold modify at 1. unfold bind at 1.
  assert (H3 : with_self (fun h => set_base (set_closed false (base h)) h)
                 (world_of b o tp (Some f) d r cs)
               = world_of b o tp (Some f) d r cs).
  { unfold with_self, set_base, world_of. simpl. destruct b; simpl in *.
    now subst. }
  rewrite H3.
  rewrite (bind_ok _ _ _ _ _
             (seek_mirrored b o tp f d r cs c 0 Hfc Hd ltac:(lia))).
  assert (H5 : mode_str (world_of b 0 tp (Some (FileIO.set_pos 0 f)) d r cs)
               = (Ok m, world_of b 0 tp (Some (FileIO.set_pos 0 f)) d r cs)).
  { unfold mode_str. unfold_monad. simpl. now rewrite Hmode. }
  rewrite (bind_ok _ _ _ _ _ H5), Hchars, Ha.
  assert (Hp : 0 <= len c + 0) by (unfold len; lia).
  rewrite (bind_ok _ _ _ _ _
             (seek_end_mirrored b 0 tp (FileIO.set_pos 0 f) d r cs c 0
                Hfc Hd Hp)).
  rewrite Z.add_0_r. reflexivity.
Qed.

(** C6, as the code has it.  [open] with a mode that holds [a] first closes
    a handle that is open, and raises what that [close] raises.  After it
    an open handle holds no file object, and neither does a closed one on
    which [local] was not called: then [open] looks the object's size up,
    and when the lookup gives [n] it returns with the offset at [n] (0 when
    the client answers 0), with no mirror made and the handle open; when the
    lookup raises, [open] raises the same error and the offset is left at
    0.  A closed handle that holds a file object is not closed first, and
    [open] puts the offset at the end of the mirror file without asking the
    client. *)
Theorem open_for_append (w : world R) (mode : string) :
  valid_mode mode -> char_in "a" mode = true ->
  let pre := (if negb (_closed (base (self w))) then close else ret tt) w in
  let w1 := snd pre in
  let w' := snd (open mode w) in
  (forall e, fst pre = Raise e -> fst (open mode w) = Raise e)
  /\ (_closed (base (self w)) = false -> __file_io (self w1) = None)
  /\ (fst pre = Ok tt -> __file_io (self w1) = None ->
      (forall n, get_size (cloud w1) = Ok n -> 0 <= n ->
         fst (open mode w) = Ok tt
         /\ _offset (self w') = n
         /\ __file_io (self w') = None
         /\ disk w' = disk w1
         /\ _closed (base (self w')) = false
         /\ calls w' = calls w1 ++ [CallGetSize])
      /\ (forall e, get_size (cloud w1) = Raise e ->
            fst (open mode w) = Raise e /\ _offset (self w') = 0))
  /\ (forall f c,
        _closed (base (self w)) = true -> __file_io (self w) = Some f ->
        FileIO.closed f = false -> disk w !! FileIO.name f = Some c ->
        fst (open mode w) = Ok tt
        /\ _offset (self w') = len c
        /\ calls w' = calls w).
Proof.
  intros Hv Ha pre w1 w'.
  split; [|split; [|split]].
  - intros e He. unfold open.
    rewrite (bind_ok get _ w w w eq_refl).
    fold pre. destruct pre as [[[]|e'] w2] eqn:E; simpl in He;
      [discriminate He|].
    injection He as ->.
    unfold pre in E. now rewrite (bind_raise _ _ _ _ _ E).
  - intros Hc. unfold w1, pre. rewrite Hc. simpl.
    now apply close_drops_file_io.
  - intros Hok Hf.
    assert (H1 : pre = (Ok tt, w1)).
    { unfold w1. destruct pre as [[[]|e'] w2]; simpl in *;
        [reflexivity | discriminate Hok]. }
    destruct (open_prefix w w1 mode H1 Hf Hv)
      as (b & m & Hclosed & Hmode & Hchars & Hopen).
    unfold w'. rewrite Hopen, Hchars, Ha. split.
    + intros n Hn Hpos.
      rewrite (bind_ok _ _ _ _ _
                 (seek_end
                    (with_self (set_offset 0) (with_self (set_base b) w1))
                    0 n Hf Hn)).
      simpl. rewrite Z.add_0_r, Z.max_r by lia. repeat split; assumption.
    + intros e He.
      rewrite (bind_raise _ _ _ _ _
                 (seek_end_unresolved
                    (with_self (set_offset 0) (with_self (set_base b) w1))
                    0 e Hf He)).
      simpl. auto.
  - intros f c Hc Hf Hfc Hd. unfold w'.
    destruct w as [[bs o tp fio] d r cs]. simpl in Hc, Hf, Hd. subst fio.
    destruct (open_append_closed_mirror bs o tp f d r cs c mode
                Hv Ha Hc Hfc Hd) as (b & Hopen).
    unfold world_of in Hopen. rewrite Hopen. simpl. auto.
Qed.

End OpenAppend.

(** An object of 100 bytes opened with "a": the offset is 100.  A handle
    opened with "w", to which twelve bytes were written, opened again with
    "a": the twelve bytes are uploaded and the offset is 12. *)
Lemma open_for_append_witness :
  let w0 := fresh_world (existing (replicate 100 x00)) in
  let written := snd ((open "w" ;;; write hello) (fresh_world missing)) in
  (fst (open "a" w0) = Ok tt
   /\ _offset (self (snd (open "a" w0))) = 100)
  /\ (fst (open "a" written) = Ok tt
      /\ _offset (self (snd (open "a" written))) = 12
      /\ cloud (snd (open "a" written)) = existing hello).
Proof.
  intros w0 written. split.
  - pose proof (open_for_append w0 "a" valid_mode_a eq_refl)
      as (_ & _ & H & _).
    destruct (H eq_refl eq_refl) as (H' & _).
    destruct (H' 100 eq_refl ltac:(lia)) as (H1 & H2 & _).
    split; [exact H1 | exact H2].
  - pose proof (open_for_append written "a" valid_mode_a eq_refl)
      as (_ & _ & H & _).
    destruct (H eq_refl eq_refl) as (H' & _).
    destruct (H' 12 eq_refl ltac:(lia)) as (H1 & H2 & _).
    split; [exact H1 | split; [exact H2 | reflexivity]].
Defined.

(** C6 as stated fails on a closed handle that holds a mirror: after
    [open("w")], a write of twelve bytes and [close], the object has twelve
    bytes; [local] then makes an empty mirror, and [open("a")] returns with
    the cursor at 0, the end of that mirror, without asking for the
    object's size. *)
Lemma open_for_append_on_closed_mirror :
  let w := snd ((open "w" ;;; write hello ;;; close ;;; local)
                  (fresh_world missing)) in
  _closed (base (self w)) = true
  /\ cloud w = existing hello
  /\ get_size (cloud w) = Ok 12
  /\ fst (open "a" w) = Ok tt
  /\ _offset (self (snd (open "a" w))) = 0
  /\ calls (snd (open "a" w)) = calls w.
Proof. repeat split. Qed.
